(** * Prism Digital asset generator: a shallow embedding of
      [scripts/generate_assets.py] and the properties of its five
      procedural images and of its driver loop.

    Python floats are IEEE 754 binary64 numbers; they are embedded with the
    executable specification [SpecFloat] of the Standard Library (precision
    53, maximal exponent 1024), so every arithmetic step rounds exactly as
    the interpreter does.  Python exceptions are values of [exn] carried by
    the error monad [result]. *)

From stdpp Require Import list list_numbers sorting.
From Stdlib Require Import ZArith Lia String Ascii.
From Stdlib Require Import Floats.SpecFloat.

Local Open Scope string_scope.
Local Open Scope Z_scope.

(** ** Exceptions and the error monad *)

Inductive exc_class :=
  | ValueError | OverflowError | IndexError | ZeroDivisionError
  | OSError | PermissionError | FileNotFoundError
  | KeyboardInterrupt | SystemExit.

Record exn := Exn { exn_class : exc_class; exn_str : string }.

(** [isinstance(e, Exception)]: everything but the two classes that derive
    from [BaseException] directly. *)
Definition is_Exception (e : exn) : bool :=
  match exn_class e with
  | KeyboardInterrupt | SystemExit => false
  | _ => true
  end.

Inductive result (A : Type) :=
  | Ok (a : A)
  | Raise (e : exn).
Arguments Ok {A} a.
Arguments Raise {A} e.

Definition bind {A B} (m : result A) (k : A -> result B) : result B :=
  match m with
  | Ok a => k a
  | Raise e => Raise e
  end.

Notation "'let*' x ':=' m 'in' k" := (bind m (fun x => k))
  (at level 10, x name, m at level 100, k at level 200).

(** [for i in l: s = body(i, s)] *)
Fixpoint for_each {S : Type} (l : list Z) (body : Z -> S -> result S) (s : S)
  : result S :=
  match l with
  | [] => Ok s
  | i :: l' => let* s' := body i s in for_each l' body s'
  end.

(** [tuple(f(i) for i in l)] *)
Fixpoint tuple_of {A : Type} (l : list Z) (f : Z -> result A) : result (list A) :=
  match l with
  | [] => Ok []
  | i :: l' => let* a := f i in let* t := tuple_of l' f in Ok (a :: t)
  end.

(** [range(n)] *)
Definition range (n : Z) : list Z := seqZ 0 n.

(** [l[i]], with Python's negative indices. *)
Definition getitem {A : Type} (l : list A) (i : Z) : result A :=
  let n := Z.of_nat (List.length l) in
  let j := if i <? 0 then i + n else i in
  if (0 <=? j) && (j <? n) then
    match l !! Z.to_nat j with
    | Some a => Ok a
    | None => Raise (Exn IndexError "list index out of range")
    end
  else Raise (Exn IndexError "list index out of range").

(** ** Python floats *)

Module Float.

Definition float := spec_float.
Definition prec : Z := 53.
Definition emax : Z := 1024.

(** [float(z)] for an [int] (exact below [2^53]). *)
Definition of_Z (z : Z) : float := binary_normalize prec emax z 0 false.

Definition add : float -> float -> float := SFadd prec emax.
Definition sub : float -> float -> float := SFsub prec emax.
Definition mul : float -> float -> float := SFmul prec emax.
Definition ltb : float -> float -> bool := SFltb.
Definition leb : float -> float -> bool := SFleb.

(** A decimal literal [n/d] denotes the double nearest to it, which is
    what the correctly rounded quotient of the two integers is. *)
Definition decimal (n d : Z) : float := SFdiv prec emax (of_Z n) (of_Z d).

Definition is_zero (x : float) : bool :=
  match x with S754_zero _ => true | _ => false end.

(** [x / y] *)
Definition div (x y : float) : result float :=
  if is_zero y then Raise (Exn ZeroDivisionError "float division by zero")
  else Ok (SFdiv prec emax x y).

(** [z ** 0.5] for a non-negative [int]: the C library's [pow], taken
    to return the correctly rounded square root. *)
Definition pow_half (z : Z) : float := SFsqrt prec emax (of_Z z).

(** [min(a, b)]: [b] when [b < a], else [a]. *)
Definition min (a b : float) : float := if ltb b a then b else a.

(** [int(x)]: truncation towards zero. *)
Definition to_int (x : float) : result Z :=
  match x with
  | S754_zero _ => Ok 0
  | S754_finite s m e =>
      let a := Z.shiftl (Z.pos m) e in
      Ok (if s then - a else a)
  | S754_infinity _ =>
      Raise (Exn OverflowError "cannot convert float infinity to integer")
  | S754_nan => Raise (Exn ValueError "cannot convert float NaN to integer")
  end.

Definition f0_2 : float := Eval vm_compute in decimal 2 10.
Definition f0_3 : float := Eval vm_compute in decimal 3 10.
Definition f0_4 : float := Eval vm_compute in decimal 4 10.
Definition f0_5 : float := Eval vm_compute in decimal 5 10.
Definition f0_6 : float := Eval vm_compute in decimal 6 10.
Definition f0_7 : float := Eval vm_compute in decimal 7 10.
Definition f0_8 : float := Eval vm_compute in decimal 8 10.
Definition f1_0 : float := Eval vm_compute in decimal 1 1.

End Float.

Import Float.

(** [a / b] on two [int]s. *)
Definition int_truediv (a b : Z) : result float :=
  if b =? 0 then Raise (Exn ZeroDivisionError "division by zero")
  else Ok (SFdiv prec emax (of_Z a) (of_Z b)).

(** ** Strings: what [hex_to_rgb] uses *)

(** [s.lstrip(c)] *)
Fixpoint lstrip (c : ascii) (s : string) : string :=
  match s with
  | String a s' => if Ascii.eqb a c then lstrip c s' else s
  | EmptyString => s
  end.

(** [s[i:j]] for [0 <= i <= j] *)
Definition slice (s : string) (i j : Z) : string :=
  substring (Z.to_nat i) (Z.to_nat (j - i)) s.

Definition hex_digit (c : ascii) : option Z :=
  let n := Z.of_N (N_of_ascii c) in
  if (48 <=? n) && (n <=? 57) then Some (n - 48)
  else if (97 <=? n) && (n <=? 102) then Some (n - 87)
  else if (65 <=? n) && (n <=? 70) then Some (n - 55)
  else None.

Fixpoint hex_digits (s : string) (acc : Z) : option Z :=
  match s with
  | EmptyString => Some acc
  | String c s' =>
      match hex_digit c with
      | Some d => hex_digits s' (16 * acc + d)
      | None => None
      end
  end.

(** [int(s, 16)] on a string of hexadecimal digits; anything else is
    reported as the [ValueError] Python raises on a malformed literal
    (signs, blanks, prefixes and underscores are not modelled: the four
    colour constants are plain digits). *)
Definition int16 (s : string) : result Z :=
  match s with
  | EmptyString => Raise (Exn ValueError "invalid literal for int() with base 16")
  | _ =>
      match hex_digits s 0 with
      | Some z => Ok z
      | None => Raise (Exn ValueError "invalid literal for int() with base 16")
      end
  end.

(** A colour is a tuple of bands. *)
Definition color := list Z.

Definition hex_to_rgb (hex_color : string) : result color :=
  let hex_color := lstrip "#"%char hex_color in
  tuple_of [0; 2; 4] (fun i => int16 (slice hex_color i (i + 2))).

(** ** Images: what the script uses of [PIL.Image] *)

Inductive mode := L | RGB | RGBA.

(** A row-major pixel buffer; pixel [(x, y)] is at index [y * width + x]. *)
Record Image := {
  im_mode : mode;
  im_width : Z;
  im_height : Z;
  im_data : list color
}.

(** [Image.new(mode, (w, h), fill)] *)
Definition Image_new (m : mode) (w h : Z) (fill : color) : Image :=
  {| im_mode := m; im_width := w; im_height := h;
     im_data := replicate (Z.to_nat (w * h)) fill |}.

(** Every band is stored in eight bits: a value outside [0, 255] is
    clipped on the way in. *)
Definition clip8 (v : Z) : Z := Z.max 0 (Z.min 255 v).

Definition in_image (img : Image) (x y : Z) : bool :=
  (0 <=? x) && (x <? im_width img) && (0 <=? y) && (y <? im_height img).

(** A negative coordinate counts from the far edge. *)
Definition wrap (size i : Z) : Z := if i <? 0 then size + i else i.

(** [img.putpixel((x, y), c)] *)
Definition putpixel (img : Image) (xy : Z * Z) (c : color) : result Image :=
  let x := wrap (im_width img) (fst xy) in
  let y := wrap (im_height img) (snd xy) in
  if in_image img x y then
    Ok {| im_mode := im_mode img; im_width := im_width img;
          im_height := im_height img;
          im_data := <[Z.to_nat (y * im_width img + x) := map clip8 c]> (im_data img) |}
  else Raise (Exn IndexError "image index out of range").

(** [img.getpixel((x, y))] *)
Definition getpixel (img : Image) (xy : Z * Z) : result color :=
  let x := wrap (im_width img) (fst xy) in
  let y := wrap (im_height img) (snd xy) in
  if in_image img x y then
    match im_data img !! Z.to_nat (y * im_width img + x) with
    | Some c => Ok c
    | None => Raise (Exn IndexError "image index out of range")
    end
  else Raise (Exn IndexError "image index out of range").

Definition len {A : Type} (l : list A) : Z := Z.of_nat (List.length l).

(** ** The gradient generator *)

(** Line 49: [segment = (y / height) * (len(colors) - 1)] *)
Definition gradient_segment (colors : list color) (height y : Z) : result float :=
  let* q := int_truediv y height in
  Ok (mul q (of_Z (len colors - 1))).

(** Lines 56-58, the interpolation branch. *)
Definition gradient_interpolate (colors : list color) (segment : float) (idx : Z)
  : result color :=
  let t := sub segment (of_Z idx) in
  let* c1 := getitem colors idx in
  let* c2 := getitem colors (idx + 1) in
  tuple_of (range 3) (fun i =>
    let* a := getitem c1 i in
    let* b := getitem c2 i in
    let* a' := getitem c1 i in
    to_int (add (of_Z a) (mul (of_Z (b - a')) t))).

(** Lines 49-58: the colour of row [y]. *)
Definition gradient_row_color (colors : list color) (height y : Z) : result color :=
  let* segment := gradient_segment colors height y in
  let* idx := to_int segment in
  if idx >=? len colors - 1 then getitem colors (-1)
  else gradient_interpolate colors segment idx.

(** Lines 39-44 *)
Definition gradient_colors : result (list color) :=
  let* c0 := hex_to_rgb "#1a0033" in
  let* c1 := hex_to_rgb "#4a0080" in
  let* c2 := hex_to_rgb "#8b00ff" in
  let* c3 := hex_to_rgb "#d580ff" in
  Ok [c0; c1; c2; c3].

Definition generate_purple_gradient (_ : unit) : result Image :=
  let width := 256 in
  let height := 256 in
  let img := Image_new RGB width height [0; 0; 0] in
  let* colors := gradient_colors in
  for_each (range height) (fun y img =>
    let* color := gradient_row_color colors height y in
    for_each (range width) (fun x img => putpixel img (x, y) color) img) img.

(** ** The matcap generator *)

(** Lines 92-96: the clamped normalised distance, from the squared
    distance [dx*dx + dy*dy] on. *)
Definition matcap_norm_dist (center_x center_y d2 : Z) : result float :=
  let distance := pow_half d2 in
  let max_distance := pow_half (center_x ^ 2 + center_y ^ 2) in
  let* q := div distance max_distance in
  Ok (min q f1_0).

(** Lines 99-101: the three channels. *)
Definition matcap_channels (norm_dist : float) : result color :=
  let* r := to_int (mul (of_Z 255) (sub (of_Z 1) (mul norm_dist f0_8))) in
  let* g := to_int (mul (of_Z 255) (sub (of_Z 1) (mul norm_dist f0_8))) in
  let* b := to_int (mul (of_Z 255) (sub (of_Z 1) (mul norm_dist f0_5))) in
  Ok [r; g; b].

(** Lines 90-101: the colour of pixel [(x, y)]. *)
Definition matcap_pixel (center_x center_y x y : Z) : result color :=
  let dx := x - center_x in
  let dy := y - center_y in
  let* norm_dist := matcap_norm_dist center_x center_y (dx * dx + dy * dy) in
  matcap_channels norm_dist.

(** The [ImageDraw.Draw] handle of line 82 is never used. *)
Definition generate_matcap_texture (_ : unit) : result Image :=
  let width := 256 in
  let height := 256 in
  let img := Image_new RGB width height [0; 0; 0] in
  let center_x := width / 2 in
  let center_y := height / 2 in
  for_each (range height) (fun y img =>
    for_each (range width) (fun x img =>
      let* c := matcap_pixel center_x center_y x y in
      putpixel img (x, y) c) img) img.

(** ** The particle sprites *)

(** Lines 117-123 (and 149-155): the clamped normalised distance, from the
    squared distance on; [max_distance] is the integer [center]. *)
Definition sprite_norm_dist (center d2 : Z) : result float :=
  let distance := pow_half d2 in
  let max_distance := center in
  let* q := div distance (of_Z max_distance) in
  Ok (min q f1_0).

(** Line 129 *)
Definition glow_mid (norm_dist : float) : result Z :=
  let* q := div (sub norm_dist f0_2) f0_3 in
  to_int (mul (of_Z 255) (sub (of_Z 1) (mul q f0_2))).

(** Line 131 *)
Definition glow_outer (norm_dist : float) : result Z :=
  let* q := div (sub norm_dist f0_5) f0_5 in
  to_int (mul (mul (of_Z 255) (sub (of_Z 1) q)) f0_8).

(** Lines 126-133 *)
Definition glow_alpha (norm_dist : float) : result Z :=
  if ltb norm_dist f0_2 then Ok 255
  else if ltb norm_dist f0_5 then glow_mid norm_dist
  else if ltb norm_dist f1_0 then glow_outer norm_dist
  else Ok 0.

(** Line 159 *)
Definition soft_core : result Z := to_int (mul (of_Z 255) f0_6).

(** Line 161 *)
Definition soft_mid (norm_dist : float) : result Z :=
  let* q := div (sub norm_dist f0_3) f0_4 in
  to_int (mul (mul (of_Z 255) f0_6) (sub (of_Z 1) q)).

(** Line 163 *)
Definition soft_outer (norm_dist : float) : result Z :=
  let* q := div (sub norm_dist f0_7) f0_3 in
  to_int (mul (mul (mul (of_Z 255) f0_6) (sub (of_Z 1) q)) f0_3).

(** Lines 158-165 *)
Definition soft_alpha (norm_dist : float) : result Z :=
  if ltb norm_dist f0_3 then soft_core
  else if ltb norm_dist f0_7 then soft_mid norm_dist
  else if ltb norm_dist f1_0 then soft_outer norm_dist
  else Ok 0.

(** The body of the pixel loop of either sprite: white, with the alpha
    the profile gives at the pixel's normalised distance. *)
Definition sprite_pixel (profile : float -> result Z) (center x y : Z) : result color :=
  let dx := x - center in
  let dy := y - center in
  let* norm_dist := sprite_norm_dist center (dx * dx + dy * dy) in
  let* alpha := profile norm_dist in
  Ok [255; 255; 255; alpha].

Definition generate_particle_sprite (_ : unit) : result Image :=
  let size := 64 in
  let img := Image_new RGBA size size [0; 0; 0; 0] in
  let center := size / 2 in
  for_each (range size) (fun y img =>
    for_each (range size) (fun x img =>
      let* c := sprite_pixel glow_alpha center x y in
      putpixel img (x, y) c) img) img.

Definition generate_soft_particle_sprite (_ : unit) : result Image :=
  let size := 64 in
  let img := Image_new RGBA size size [0; 0; 0; 0] in
  let center := size / 2 in
  for_each (range size) (fun y img =>
    for_each (range size) (fun x img =>
      let* c := sprite_pixel soft_alpha center x y in
      putpixel img (x, y) c) img) img.

(** ** The noise generator *)

Section Noise.

(** [randint y x] is the integer that [np.random.randint(0, 256, ...)]
    drew for row [y], column [x] in this run, and [gaussian_blur radius]
    is Pillow's [ImageFilter.GaussianBlur(radius)] filter; neither is part
    of the script. *)
Variable randint : Z -> Z -> Z.
Variable gaussian_blur : Z -> Image -> Image.

(** [Image.fromarray(noise, mode='L')] for the [height] by [width] array. *)
Definition Image_fromarray (width height : Z) (noise : Z -> Z -> Z) : Image :=
  {| im_mode := L; im_width := width; im_height := height;
     im_data := flat_map (fun y => map (fun x => [noise y x]) (range width))
                         (range height) |}.

Definition generate_noise_texture (_ : unit) : result Image :=
  let width := 512 in
  let height := 512 in
  let noise := randint in
  let img := Image_fromarray width height noise in
  let img := gaussian_blur 1 img in
  Ok img.

End Noise.

(** ** The driver *)

(** What the run does to the outside world, in order. *)
Inductive event :=
  | Print (s : string)
  | Mkdir (p : string)
  | Call (name : string)
  | Save (p : string) (img : Image).

(** A command runs on the trace so far; it extends the trace and returns
    or raises. *)
Definition IO (A : Type) : Type := list event -> list event * result A.

Definition io_bind {A B} (m : IO A) (k : A -> IO B) : IO B :=
  fun t =>
    match m t with
    | (t', Ok a) => k a t'
    | (t', Raise e) => (t', Raise e)
    end.

Notation "'do*' x ':=' m 'in' k" := (io_bind m (fun x => k))
  (at level 10, x name, m at level 100, k at level 200).

Definition emit {A} (ev : event) (r : result A) : IO A :=
  fun t => ((t ++ [ev])%list, r).

Definition print (s : string) : IO unit := emit (Print s) (Ok tt).

(** [try: body  except Exception as e: handler(e)] *)
Definition try_except {A} (body : IO A) (handler : exn -> IO A) : IO A :=
  fun t =>
    match body t with
    | (t', Ok a) => (t', Ok a)
    | (t', Raise e) => if is_Exception e then handler e t' else (t', Raise e)
    end.

(** [for a in l: body(a)] *)
Fixpoint io_for {A} (l : list A) (body : A -> IO unit) : IO unit :=
  match l with
  | [] => fun t => (t, Ok tt)
  | a :: l' => do* _ := body a in io_for l' body
  end.

(** [p / q] on paths *)
Definition path_join (p q : string) : string := p ++ "/" ++ q.

Record Asset := {
  name : string;
  path : string;
  generator : unit -> result Image;
  description : string
}.

Section Driver.

(** The file system, as the run meets it: the error, if any, with which a
    directory creation or an image write fails. *)
Variable OUTPUT_DIR : string.
Variable mkdir_error : string -> option exn.
Variable save_error : Image -> string -> option exn.

(** The randomness and the blur of the noise generator. *)
Variable randint : Z -> Z -> Z.
Variable gaussian_blur : Z -> Image -> Image.

(** [p.mkdir(parents=True, exist_ok=True)] *)
Definition mkdir (p : string) : IO unit :=
  emit (Mkdir p) (match mkdir_error p with Some e => Raise e | None => Ok tt end).

(** [img.save(p)] *)
Definition save (img : Image) (p : string) : IO unit :=
  emit (Save p img) (match save_error img p with Some e => Raise e | None => Ok tt end).

(** [asset['generator']()] *)
Definition call (asset : Asset) : IO Image :=
  emit (Call (name asset)) (generator asset tt).

Definition ensure_directories : IO unit :=
  do* _ := mkdir (path_join OUTPUT_DIR "textures") in
  do* _ := mkdir (path_join OUTPUT_DIR "sprites") in
  mkdir (path_join OUTPUT_DIR "hdri").

(** Lines 211-219: one turn of the loop. *)
Definition process_asset (asset : Asset) : IO unit :=
  try_except
    (do* img := call asset in
     let output_path := path_join (path_join OUTPUT_DIR (path asset)) (name asset) in
     do* _ := save img output_path in
     do* _ := print ("✓ Generated: " ++ path asset ++ "/" ++ name asset) in
     print ("  " ++ description asset ++ "
"))
    (fun e =>
     do* _ := print ("✗ Failed: " ++ path asset ++ "/" ++ name asset) in
     print ("  Error: " ++ exn_str e ++ "
")).

(** Lines 177-208 *)
Definition assets : list Asset := [
  {| name := "purple-gradient.png"; path := "textures";
     generator := generate_purple_gradient;
     description := "Purple gradient texture for scene theming" |};
  {| name := "noise.png"; path := "textures";
     generator := generate_noise_texture randint gaussian_blur;
     description := "Noise texture for particle displacement" |};
  {| name := "matcap-metallic.png"; path := "textures";
     generator := generate_matcap_texture;
     description := "Metallic matcap for reflective surfaces" |};
  {| name := "particle-glow.png"; path := "sprites";
     generator := generate_particle_sprite;
     description := "Soft circular particle sprite with glow" |};
  {| name := "particle-soft.png"; path := "sprites";
     generator := generate_soft_particle_sprite;
     description := "Extra soft particle sprite for background" |}
].

Definition main : IO unit :=
  do* _ := print "Generating Prism Digital assets...
" in
  do* _ := ensure_directories in
  do* _ := io_for assets process_asset in
  print "Asset generation complete!
".

End Driver.

(** * The vocabulary of the properties *)

(** ** Images *)

Definition wf_image (img : Image) : Prop :=
  0 <= im_width img /\ 0 <= im_height img /\
  List.length (im_data img) = Z.to_nat (im_width img * im_height img).

Definition same_shape (a b : Image) : Prop :=
  im_mode b = im_mode a /\ im_width b = im_width a /\ im_height b = im_height a.

Definition inside (img : Image) (x y : Z) : Prop :=
  0 <= x < im_width img /\ 0 <= y < im_height img.

Definition byte_color (c : color) : bool :=
  forallb (fun v => (0 <=? v) && (v <=? 255)) c.

(** Pixel [(x, y)] of the image a generator returns. *)
Definition pixel_of (gen : unit -> result Image) (x y : Z) : result color :=
  let* img := gen tt in getpixel img (x, y).

(** An image of mode [L] whose every pixel is one band of eight bits. *)
Definition L8_image (img : Image) : Prop :=
  wf_image img /\
  Forall (fun c => exists v, c = [v] /\ 0 <= v <= 255) (im_data img).

(** ** Gradient *)

(** The four decoded stops. *)
Definition stops : list color :=
  [[26; 0; 51]; [74; 0; 128]; [139; 0; 255]; [213; 128; 255]].

(** What is checked on each of the 256 rows: the segment index is
    [3 * y / 256], it is below [len(colors) - 1], and the interpolation
    branch yields three bands that fit in eight bits. *)
Definition gradient_row_check (y : Z) : bool :=
  match gradient_segment stops 256 y with
  | Ok segment =>
      match to_int segment with
      | Ok idx =>
          (idx =? 3 * y / 256) && (idx <=? 2) &&
          match gradient_interpolate stops segment idx with
          | Ok c => byte_color c
          | Raise _ => false
          end
      | Raise _ => false
      end
  | Raise _ => false
  end.

(** ** Squared distances *)

(** The pairs [(a, b)] with [0 <= b <= a <= n]: up to the eight symmetries
    of the square, the offsets of the pixels from the centre. *)
Definition pairs (n : Z) : list (Z * Z) :=
  flat_map (fun a => map (fun b => (a, b)) (range (a + 1))) (range (n + 1)).

(** ** Matcap *)

(** What is checked at every squared distance that occurs: the normalised
    distance lies in [0, 1] and the three channels fit in eight bits. *)
Definition matcap_check (d2 : Z) : bool :=
  match matcap_norm_dist 128 128 d2 with
  | Ok n =>
      leb (of_Z 0) n && leb n f1_0 &&
      match matcap_channels n with
      | Ok c => byte_color c
      | Raise _ => false
      end
  | Raise _ => false
  end.

(** ** Sprites *)

Inductive sprite := Glow | Soft.

Definition sprite_generator (s : sprite) : unit -> result Image :=
  match s with
  | Glow => generate_particle_sprite
  | Soft => generate_soft_particle_sprite
  end.

Definition sprite_profile (s : sprite) : float -> result Z :=
  match s with Glow => glow_alpha | Soft => soft_alpha end.

(** The piece of the profile a normalised distance falls in: 0 for the
    core, 1 and 2 for the two slopes, 3 for the outside. *)
Definition segment_of (b1 b2 norm_dist : float) : Z :=
  if ltb norm_dist b1 then 0
  else if ltb norm_dist b2 then 1
  else if ltb norm_dist f1_0 then 2
  else 3.

Definition sprite_segment (s : sprite) : float -> Z :=
  match s with Glow => segment_of f0_2 f0_5 | Soft => segment_of f0_3 f0_7 end.

(** Normalised distance, segment and alpha at a squared distance. *)
Definition sprite_sample (s : sprite) (d2 : Z) : result (float * Z * Z) :=
  let* norm_dist := sprite_norm_dist 32 d2 in
  let* alpha := sprite_profile s norm_dist in
  Ok (norm_dist, sprite_segment s norm_dist, alpha).

Definition sample_check (d2 : Z) (r : result (float * Z * Z)) : bool :=
  match r with
  | Ok (n, _, alpha) =>
      (0 <=? alpha) && (alpha <=? 255) &&
      implb ((1024 <=? d2) || leb f1_0 n) (alpha =? 0)
  | Raise _ => false
  end.

Definition monotone_check (u v : result (float * Z * Z)) : bool :=
  match u, v with
  | Ok (n1, s1, a1), Ok (n2, s2, a2) => implb ((s1 =? s2) && leb n1 n2) (a2 <=? a1)
  | _, _ => false
  end.

Definition sprite_table (s : sprite) : list (result (float * Z * Z)) :=
  map (fun p => sprite_sample s (fst p * fst p + snd p * snd p)) (pairs 32).

Definition all_pairs {A} (chk : A -> A -> bool) (l : list A) : bool :=
  forallb (fun u => forallb (chk u) l) l.

(** ** Driver *)

Arguments generate_purple_gradient : simpl never.
Arguments generate_matcap_texture : simpl never.
Arguments generate_particle_sprite : simpl never.
Arguments generate_soft_particle_sprite : simpl never.
Arguments generate_noise_texture : simpl never.

(** The generator calls, the image writes and the lines printed in a trace. *)
Definition calls (t : list event) : list string :=
  flat_map (fun ev => match ev with Call n => [n] | _ => [] end) t.

Definition saved_paths (t : list event) : list string :=
  flat_map (fun ev => match ev with Save p _ => [p] | _ => [] end) t.

Definition prints (t : list event) : list string :=
  flat_map (fun ev => match ev with Print s => [s] | _ => [] end) t.

(** The two lines that report the failure of an asset. *)
Definition failure_report (a : Asset) (e : exn) : list event :=
  [Print ("✗ Failed: " ++ path a ++ "/" ++ name a);
   Print ("  Error: " ++ exn_str e ++ "
")].

Definition success_report (a : Asset) : list event :=
  [Print ("✓ Generated: " ++ path a ++ "/" ++ name a);
   Print ("  " ++ description a ++ "
")].

Definition output_path (OUTPUT_DIR : string) (a : Asset) : string :=
  path_join (path_join OUTPUT_DIR (path a)) (name a).

(** The error, if any, that generating or writing an asset raises. *)
Definition asset_error (OUTPUT_DIR : string)
    (save_error : Image -> string -> option exn) (a : Asset) : option exn :=
  match generator a tt with
  | Raise e => Some e
  | Ok img => save_error img (output_path OUTPUT_DIR a)
  end.

(** What one turn of the loop adds to the trace. *)
Definition asset_trace (OUTPUT_DIR : string)
    (save_error : Image -> string -> option exn) (a : Asset) : list event :=
  match generator a tt with
  | Raise e => Call (name a) :: (if is_Exception e then failure_report a e else [])
  | Ok img =>
      Call (name a) :: Save (output_path OUTPUT_DIR a) img ::
      match save_error img (output_path OUTPUT_DIR a) with
      | None => success_report a
      | Some e => if is_Exception e then failure_report a e else []
      end
  end.

(** A destination root on which every directory creation and every write
    is refused. *)
Definition permission_denied (p : string) : exn :=
  Exn PermissionError ("[Errno 13] Permission denied: '" ++ p ++ "'").

Definition refuse_mkdir (p : string) : option exn := Some (permission_denied p).

Definition refuse_save (_ : Image) (p : string) : option exn :=
  Some (permission_denied p).

(** ** Hexadecimal colour strings *)

(** The digit of value [d], in lower or in upper case. *)
Definition hex_char (upper : bool) (d : Z) : ascii :=
  ascii_of_N (Z.to_N (if d <? 10 then 48 + d else if upper then 55 + d else 87 + d)).

(** The two digits of a byte. *)
Definition hex2 (upper : bool) (v : Z) : string :=
  String (hex_char upper (v / 16)) (String (hex_char upper (v mod 16)) EmptyString).

(** [n] number signs. *)
Fixpoint hashes (n : nat) : string :=
  match n with
  | O => EmptyString
  | S n' => String "#"%char (hashes n')
  end.

Definition hex2_check (v : Z) : bool :=
  forallb (fun upper =>
    match int16 (hex2 upper v) with
    | Ok z => (z =? v) && negb (Ascii.eqb (hex_char upper (v / 16)) "#"%char)
    | Raise _ => false
    end) [false; true].

(** ** Shapes *)

(** [img] has the mode, the size and the buffer length of [img0]. *)
Definition keeps_shape (img0 img : Image) : Prop :=
  same_shape img0 img /\ List.length (im_data img) = List.length (im_data img0).

(** An image of the given mode and size whose buffer holds one colour per
    pixel. *)
Definition has_shape (m : mode) (w h : Z) (img : Image) : Prop :=
  im_mode img = m /\ im_width img = w /\ im_height img = h /\
  Z.of_nat (List.length (im_data img)) = w * h.

(** ** Rows of the gradient *)

(** The three channels of row [y] (black when the row has no colour). *)
Definition gradient_rgb (y : Z) : Z * Z * Z :=
  match gradient_row_color stops 256 y with
  | Ok [r; g; b] => (r, g, b)
  | _ => (0, 0, 0)
  end.

Definition rgb_le (p q : Z * Z * Z) : bool :=
  let '(r1, g1, b1) := p in
  let '(r2, g2, b2) := q in
  (r1 <=? r2) && (g1 <=? g2) && (b1 <=? b2).

Definition gradient_triple_check (y : Z) : bool :=
  match gradient_row_color stops 256 y with
  | Ok [r; g; b] => true
  | _ => false
  end.

Definition gradient_step_check (y : Z) : bool :=
  rgb_le (gradient_rgb y) (gradient_rgb (y + 1)).

(** ** Opacity of the two sprites *)

(** What is checked at every squared distance that occurs: the soft sprite
    is no more opaque than the glow sprite and never above 153, and either
    sprite is at its peak exactly on its core disc. *)
Definition opacity_check (d2 : Z) : bool :=
  match sprite_sample Glow d2, sprite_sample Soft d2 with
  | Ok (_, _, a_glow), Ok (_, _, a_soft) =>
      (a_soft <=? a_glow) && (a_soft <=? 153) &&
      Bool.eqb (d2 <=? 40) (a_glow =? 255) &&
      Bool.eqb (d2 <=? 92) (a_soft =? 153)
  | _, _ => false
  end.

(** ** Radial falloff of the matcap *)

(** The squared distance with the three channels computed at it (or with
    -1 thrice, should the computation raise or not yield three bands). *)
Definition matcap_entry (d2 : Z) : Z * (Z * Z * Z) :=
  match (let* norm_dist := matcap_norm_dist 128 128 d2 in matcap_channels norm_dist) with
  | Ok [r; g; b] => (d2, (r, g, b))
  | _ => (d2, (-1, -1, -1))
  end.

(** Red equals green and is at most blue, red is at least 50 and blue at
    least 127, and only the centre is white. *)
Definition tint_check (e : Z * (Z * Z * Z)) : bool :=
  let '(d2, (r, g, b)) := e in
  (r =? g) && (50 <=? r) && (r <=? b) && (127 <=? b) && (b <=? 255) &&
  Bool.eqb (d2 =? 0) (r =? 255).

Definition farther (e1 e2 : Z * (Z * Z * Z)) : Prop := fst e1 <= fst e2.

#[local] Instance farther_dec : RelDecision farther :=
  fun e1 e2 => Z_le_dec (fst e1) (fst e2).

(** [e2] is at least as far from the centre as [e1], and no brighter. *)
Definition darker (e1 e2 : Z * (Z * Z * Z)) : bool :=
  (fst e1 <=? fst e2) && rgb_le (snd e2) (snd e1).

(** Adjacent elements are related. *)
Fixpoint sortedb {A : Type} (chk : A -> A -> bool) (l : list A) : bool :=
  match l with
  | a :: l' =>
      match l' with
      | b :: _ => chk a b && sortedb chk l'
      | [] => true
      end
  | [] => true
  end.

Definition matcap_table : list (Z * (Z * Z * Z)) :=
  map (fun p => matcap_entry (fst p * fst p + snd p * snd p)) (pairs 128).

Definition matcap_radial_check (table : list (Z * (Z * Z * Z))) : bool :=
  forallb tint_check table && sortedb darker (merge_sort farther table).

(** ** Traces of the driver *)

(** The directories whose creation was attempted. *)
Definition mkdirs (t : list event) : list string :=
  flat_map (fun ev => match ev with Mkdir p => [p] | _ => [] end) t.

(** The lines that report an asset: generated, or failed with its error. *)
Definition report_lines (OUTPUT_DIR : string)
    (save_error : Image -> string -> option exn) (a : Asset) : list string :=
  match asset_error OUTPUT_DIR save_error a with
  | None => prints (success_report a)
  | Some e => prints (failure_report a e)
  end.

(** The path of the write attempted for an asset, if its generator returns. *)
Definition attempted_save (OUTPUT_DIR : string) (a : Asset) : list string :=
  match generator a tt with
  | Ok _ => [output_path OUTPUT_DIR a]
  | Raise _ => []
  end.

(** ** Rows of the gradient between their stops *)

(** The stop of index [i] as a triple (black when there is none). *)
Definition stop_rgb (i : Z) : Z * Z * Z :=
  match getitem stops i with
  | Ok [r; g; b] => (r, g, b)
  | _ => (0, 0, 0)
  end.

Definition gradient_between_check (y : Z) : bool :=
  rgb_le (stop_rgb (3 * y / 256)) (gradient_rgb y) &&
  rgb_le (gradient_rgb y) (stop_rgb (3 * y / 256 + 1)).

(** * Lemmas *)

Example hex_to_rgb_stops :
  hex_to_rgb "#1a0033" = Ok [26; 0; 51] /\
  hex_to_rgb "#4a0080" = Ok [74; 0; 128] /\
  hex_to_rgb "#8b00ff" = Ok [139; 0; 255] /\
  hex_to_rgb "#d580ff" = Ok [213; 128; 255].
Proof. repeat split. Qed.

(** ** Loops that fill an image *)

Lemma same_shape_refl a : same_shape a a.
Proof. by repeat split. Qed.

Lemma same_shape_trans a b c : same_shape a b -> same_shape b c -> same_shape a c.
Proof. unfold same_shape. intros (?&?&?) (?&?&?). repeat split; congruence. Qed.

Lemma inside_same_shape a b x y : same_shape a b -> inside a x y -> inside b x y.
Proof. unfold same_shape, inside. intros (?&->&->). done. Qed.

Lemma Image_new_wf m w h c : 0 <= w -> 0 <= h -> wf_image (Image_new m w h c).
Proof. intros. repeat split; simpl; try done. apply length_replicate. Qed.

Lemma wrap_id size i : 0 <= i -> wrap size i = i.
Proof. intros. unfold wrap. destruct (Z.ltb_spec i 0); [lia | done]. Qed.

Lemma in_image_inside img x y : inside img x y -> in_image img x y = true.
Proof.
  intros [[? ?] [? ?]]. unfold in_image.
  repeat (apply andb_true_intro; split); lia.
Qed.

Lemma index_in_range img x y :
  wf_image img -> inside img x y ->
  (Z.to_nat (y * im_width img + x) < List.length (im_data img))%nat.
Proof. intros (?&?&->) [? ?]. apply Z2Nat.inj_lt; nia. Qed.

Lemma index_injective w x y x' y' :
  0 <= x < w -> 0 <= x' < w -> 0 <= y -> 0 <= y' ->
  Z.to_nat (y * w + x) = Z.to_nat (y' * w + x') -> x = x' /\ y = y'.
Proof.
  intros ? ? ? ? E. apply Z2Nat.inj in E; [| nia | nia].
  assert (y = y') by nia. subst. lia.
Qed.

Lemma getpixel_inside img x y :
  wf_image img -> inside img x y ->
  getpixel img (x, y) = match im_data img !! Z.to_nat (y * im_width img + x) with
                        | Some c => Ok c
                        | None => Raise (Exn IndexError "image index out of range")
                        end.
Proof.
  intros ? H. unfold getpixel. simpl.
  destruct H as [? ?]. rewrite !wrap_id by lia.
  rewrite in_image_inside; done.
Qed.

(** One store: the pixel written holds the clipped colour, every other
    pixel is untouched, and the buffer keeps its shape. *)
Lemma putpixel_inside img x y c :
  wf_image img -> inside img x y ->
  exists img',
    putpixel img (x, y) c = Ok img' /\ same_shape img img' /\ wf_image img' /\
    forall x' y', inside img x' y' ->
      getpixel img' (x', y') =
        if (x' =? x) && (y' =? y) then Ok (map clip8 c) else getpixel img (x', y').
Proof.
  intros Hwf Hin. unfold putpixel. simpl.
  destruct Hin as [Hx Hy]. rewrite !wrap_id by lia.
  rewrite in_image_inside by done.
  eexists. split; [reflexivity |].
  assert (Hwf' : wf_image
     {| im_mode := im_mode img; im_width := im_width img; im_height := im_height img;
        im_data := <[Z.to_nat (y * im_width img + x) := map clip8 c]> (im_data img) |}).
  { destruct Hwf as (?&?&Hl). repeat split; simpl; try done.
    by rewrite length_insert. }
  split; [by repeat split |]. split; [done |].
  intros x' y' Hin'. rewrite getpixel_inside by done.
  rewrite (getpixel_inside img) by done. simpl.
  destruct (Z.eqb_spec x' x) as [-> | Hne]; simpl.
  - destruct (Z.eqb_spec y' y) as [-> | Hne].
    + rewrite list_lookup_insert_eq; [done |]. by apply index_in_range.
    + rewrite list_lookup_insert_ne; [done |].
      intros E. apply index_injective in E; destruct Hin'; lia.
  - rewrite list_lookup_insert_ne; [done |].
    intros E. apply index_injective in E; destruct Hin'; lia.
Qed.

(** The inner loop over the columns [a, a + n) of row [y]. *)
Lemma fill_row_from (F : Z -> result color) (G : Z -> color) y (n : nat) :
  forall a img,
  wf_image img -> 0 <= y < im_height img ->
  0 <= a -> a + Z.of_nat n <= im_width img ->
  (forall x, a <= x < a + Z.of_nat n -> F x = Ok (G x)) ->
  exists img',
    for_each (seqZ a (Z.of_nat n))
      (fun x img => let* c := F x in putpixel img (x, y) c) img = Ok img' /\
    same_shape img img' /\ wf_image img' /\
    forall x' y', inside img x' y' ->
      getpixel img' (x', y') =
        if (y' =? y) && (a <=? x') && (x' <? a + Z.of_nat n)
        then Ok (map clip8 (G x')) else getpixel img (x', y').
Proof.
  induction n as [| n IH]; intros a img Hwf Hy Ha Hn HF.
  - rewrite seqZ_nil by lia. exists img. simpl.
    split; [done |]. split; [apply same_shape_refl |]. split; [done |].
    intros x' y' _.
    destruct (y' =? y), (Z.leb_spec a x'), (Z.ltb_spec x' (a + Z.of_nat 0)); simpl; try done; lia.
  - rewrite seqZ_cons by lia. simpl.
    rewrite (HF a) by lia. simpl.
    destruct (putpixel_inside img a y (G a) Hwf) as (img1 & E1 & S1 & W1 & P1).
    { split; lia. }
    rewrite E1. simpl.
    replace (Z.pred (Z.of_nat (S n))) with (Z.of_nat n) by lia.
    destruct (IH (Z.succ a) img1) as (img2 & E2 & S2 & W2 & P2); try done.
    { destruct S1 as (_&_&->). done. }
    { lia. }
    { destruct S1 as (_&->&_). lia. }
    { intros. apply HF. lia. }
    exists img2. split; [done |]. split; [by eapply same_shape_trans |].
    split; [done |].
    intros x' y' Hin. rewrite P2 by (by eapply inside_same_shape).
    rewrite P1 by done.
    destruct (Z.eqb_spec y' y), (Z.eqb_spec x' a), (Z.leb_spec (Z.succ a) x'),
      (Z.ltb_spec x' (Z.succ a + Z.of_nat n)), (Z.leb_spec a x'),
      (Z.ltb_spec x' (a + Z.of_nat (S n))); simpl; try done; try lia; congruence.
Qed.

(** The outer loop over the rows [a, a + n), for a body that fills its row. *)
Lemma fill_rows_from (B : Z -> Image -> result Image) (G : Z -> Z -> color)
    (w h : Z) (n : nat) :
  (forall y img, 0 <= y < h -> wf_image img -> im_width img = w -> im_height img = h ->
     exists img',
       B y img = Ok img' /\ same_shape img img' /\ wf_image img' /\
       forall x' y', inside img x' y' ->
         getpixel img' (x', y') =
           if y' =? y then Ok (G x' y') else getpixel img (x', y')) ->
  forall a img,
  wf_image img -> im_width img = w -> im_height img = h ->
  0 <= a -> a + Z.of_nat n <= h ->
  exists img',
    for_each (seqZ a (Z.of_nat n)) B img = Ok img' /\
    same_shape img img' /\ wf_image img' /\
    forall x' y', inside img x' y' ->
      getpixel img' (x', y') =
        if (a <=? y') && (y' <? a + Z.of_nat n)
        then Ok (G x' y') else getpixel img (x', y').
Proof.
  intros HB. induction n as [| n IH]; intros a img Hwf Hw Hh Ha Hn.
  - rewrite seqZ_nil by lia. exists img. simpl.
    split; [done |]. split; [apply same_shape_refl |]. split; [done |].
    intros x' y' _.
    destruct (Z.leb_spec a y'), (Z.ltb_spec y' (a + Z.of_nat 0)); simpl; try done; lia.
  - rewrite seqZ_cons by lia. simpl.
    destruct (HB a img) as (img1 & E1 & S1 & W1 & P1); try done; [lia |].
    rewrite E1. simpl.
    replace (Z.pred (Z.of_nat (S n))) with (Z.of_nat n) by lia.
    destruct (IH (Z.succ a) img1) as (img2 & E2 & S2 & W2 & P2); try done.
    { destruct S1 as (_&->&_). done. }
    { destruct S1 as (_&_&->). done. }
    { lia. }
    { lia. }
    exists img2. split; [done |]. split; [by eapply same_shape_trans |].
    split; [done |].
    intros x' y' Hin. rewrite P2 by (by eapply inside_same_shape).
    rewrite P1 by done.
    destruct (Z.eqb_spec y' a), (Z.leb_spec (Z.succ a) y'),
      (Z.ltb_spec y' (Z.succ a + Z.of_nat n)), (Z.leb_spec a y'),
      (Z.ltb_spec y' (a + Z.of_nat (S n))); simpl; try done; try lia; congruence.
Qed.

Lemma fill_row (F : Z -> result color) (G : Z -> color) y img :
  wf_image img -> 0 <= y < im_height img ->
  (forall x, 0 <= x < im_width img -> F x = Ok (G x)) ->
  exists img',
    for_each (range (im_width img))
      (fun x img => let* c := F x in putpixel img (x, y) c) img = Ok img' /\
    same_shape img img' /\ wf_image img' /\
    forall x' y', inside img x' y' ->
      getpixel img' (x', y') =
        if y' =? y then Ok (map clip8 (G x')) else getpixel img (x', y').
Proof.
  intros Hwf Hy HF. unfold range.
  destruct Hwf as (Hw & Hh & Hl).
  destruct (fill_row_from F G y (Z.to_nat (im_width img)) 0 img)
    as (img' & E & S & W & P); try done; try lia.
  { intros. apply HF. lia. }
  rewrite Z2Nat.id in E by done.
  exists img'. repeat (split; [done |]).
  intros x' y' Hin. rewrite P by done. destruct Hin as [? ?].
  rewrite Z2Nat.id by done.
  destruct (y' =? y), (Z.leb_spec 0 x'), (Z.ltb_spec x' (0 + im_width img));
    simpl; try done; lia.
Qed.

Lemma fill_rows (B : Z -> Image -> result Image) (G : Z -> Z -> color) img :
  (forall y img', 0 <= y < im_height img -> wf_image img' ->
     im_width img' = im_width img -> im_height img' = im_height img ->
     exists img'',
       B y img' = Ok img'' /\ same_shape img' img'' /\ wf_image img'' /\
       forall x' y', inside img' x' y' ->
         getpixel img'' (x', y') =
           if y' =? y then Ok (G x' y') else getpixel img' (x', y')) ->
  wf_image img ->
  exists img',
    for_each (range (im_height img)) B img = Ok img' /\
    same_shape img img' /\ wf_image img' /\
    forall x y, inside img x y -> getpixel img' (x, y) = Ok (G x y).
Proof.
  intros HB Hwf. unfold range.
  pose proof Hwf as (Hw & Hh & Hl).
  destruct (fill_rows_from B G (im_width img) (im_height img)
              (Z.to_nat (im_height img)) HB 0 img)
    as (img' & E & S & W & P); try done; try lia.
  rewrite Z2Nat.id in E by done.
  exists img'. repeat (split; [done |]).
  intros x y Hin. rewrite P by done. destruct Hin as [? ?].
  rewrite Z2Nat.id by done.
  destruct (Z.leb_spec 0 y), (Z.ltb_spec y (0 + im_height img)); simpl; try done; lia.
Qed.

(** Checking a decidable property on every index of a range. *)
Lemma forallb_range (P : Z -> bool) n :
  forallb P (range n) = true -> forall i, 0 <= i < n -> P i = true.
Proof.
  intros H i Hi. rewrite forallb_forall in H. apply H.
  apply list_elem_of_In, elem_of_seqZ. lia.
Qed.

Lemma clip8_byte_color c : byte_color c = true -> map clip8 c = c.
Proof.
  induction c as [| v c IH]; simpl; [done |].
  intros H. apply andb_prop in H as [Hv Hc]. apply andb_prop in Hv as [? ?].
  rewrite IH by done. f_equal. unfold clip8. lia.
Qed.

(** The two nested loops of the matcap and of the sprites. *)
Lemma fill_image (F : Z -> Z -> result color) (w h : Z) img :
  wf_image img -> im_width img = w -> im_height img = h ->
  (forall x y, 0 <= x < w -> 0 <= y < h ->
     exists c, F x y = Ok c /\ byte_color c = true) ->
  exists img',
    for_each (range h) (fun y img =>
      for_each (range w) (fun x img =>
        let* c := F x y in putpixel img (x, y) c) img) img = Ok img' /\
    same_shape img img' /\
    forall x y, 0 <= x < w -> 0 <= y < h -> getpixel img' (x, y) = F x y.
Proof.
  intros Hwf Hw Hh HF. subst w h.
  set (G := fun x y => match F x y with Ok c => c | Raise _ => [] end).
  destruct (fill_rows
    (fun y img' =>
       for_each (range (im_width img)) (fun x img' =>
         let* c := F x y in putpixel img' (x, y) c) img')
    G img) as (img' & E & S & W & P); [| done |].
  - intros y img1 Hy W1 Hw1 Hh1.
    destruct (fill_row (fun x => F x y) (fun x => G x y) y img1 W1)
      as (img2 & E & S & W & P).
    { by rewrite Hh1. }
    { intros x Hx. rewrite Hw1 in Hx. destruct (HF x y Hx Hy) as (c & Ec & _).
      unfold G. by rewrite Ec. }
    rewrite Hw1 in E. exists img2. repeat (split; [done |]).
    intros x' y' Hin. rewrite P by done.
    destruct (Z.eqb_spec y' y) as [-> |]; [| done].
    destruct Hin as [Hx' _]. rewrite Hw1 in Hx'.
    destruct (HF x' y Hx' Hy) as (c & Ec & Hc).
    unfold G. rewrite Ec. by rewrite clip8_byte_color.
  - exists img'. repeat (split; [done |]).
    intros x y Hx Hy. rewrite P by (split; assumption).
    destruct (HF x y Hx Hy) as (c & Ec & _). unfold G. by rewrite Ec.
Qed.

(** ** The gradient *)

Lemma gradient_colors_stops : gradient_colors = Ok stops.
Proof. reflexivity. Qed.

Lemma gradient_rows_checked : forallb gradient_row_check (range 256) = true.
Proof. vm_compute. reflexivity. Qed.

Lemma gradient_row_interpolated y :
  0 <= y < 256 ->
  exists segment idx c,
    gradient_segment stops 256 y = Ok segment /\
    to_int segment = Ok idx /\ idx = 3 * y / 256 /\ idx <= 2 /\
    gradient_interpolate stops segment idx = Ok c /\
    gradient_row_color stops 256 y = Ok c /\
    byte_color c = true.
Proof.
  intros Hy. pose proof (forallb_range _ _ gradient_rows_checked y Hy) as H.
  unfold gradient_row_check in H.
  destruct (gradient_segment stops 256 y) as [segment |] eqn:Es; [| done].
  destruct (to_int segment) as [idx |] eqn:Ei; [| done].
  destruct (gradient_interpolate stops segment idx) as [c |] eqn:Ec;
    [| by rewrite andb_false_r in H].
  apply andb_prop in H as [H Hc]. apply andb_prop in H as [H1 H2].
  exists segment, idx, c. repeat split; try done; try lia.
  unfold gradient_row_color. rewrite Es. cbn [bind]. rewrite Ei. cbn [bind].
  replace (idx >=? len stops - 1) with false; [done |].
  symmetry. change (len stops - 1) with 3. lia.
Qed.

(** The image the generator returns: 256 by 256, and pixel [(x, y)] holds
    the colour computed for row [y]. *)
Lemma gradient_image :
  exists img,
    generate_purple_gradient tt = Ok img /\
    im_mode img = RGB /\ im_width img = 256 /\ im_height img = 256 /\
    forall x y, 0 <= x < 256 -> 0 <= y < 256 ->
      exists c, gradient_row_color stops 256 y = Ok c /\
                byte_color c = true /\
                getpixel img (x, y) = Ok c.
Proof.
  unfold generate_purple_gradient. rewrite gradient_colors_stops. cbn [bind].
  set (img0 := Image_new RGB 256 256 [0; 0; 0]).
  set (row := fun y => match gradient_row_color stops 256 y with
                       | Ok c => c | Raise _ => [] end).
  assert (W0 : wf_image img0) by (by apply Image_new_wf).
  destruct (fill_rows
    (fun y img =>
       let* color := gradient_row_color stops 256 y in
       for_each (range 256) (fun x img => putpixel img (x, y) color) img)
    (fun _ y => row y) img0) as (img & E & S & W & P); [| done |].
  - intros y img' Hy W' Hw' Hh'.
    destruct (gradient_row_interpolated y Hy) as (s & i & c & _ & _ & _ & _ & _ & Ec & Hb).
    rewrite Ec. cbn [bind].
    destruct (fill_row (fun _ => Ok c) (fun _ => c) y img' W') as (img'' & E & S & W & P).
    { rewrite Hh'. done. }
    { done. }
    rewrite Hw' in E. cbn [bind] in E. change (im_width img0) with 256 in E.
    exists img''. repeat (split; [done |]).
    intros x' y' Hin. rewrite P by done.
    destruct (Z.eqb_spec y' y) as [-> |]; [| done].
    unfold row. rewrite Ec. by rewrite clip8_byte_color.
  - exists img. split; [exact E |].
    destruct S as (Sm & Sw & Sh).
    split; [by rewrite Sm |]. split; [by rewrite Sw |]. split; [by rewrite Sh |].
    intros x y Hx Hy.
    destruct (gradient_row_interpolated y Hy) as (s & i & c & _ & _ & _ & _ & _ & Ec & Hb).
    exists c. split; [done |]. split; [done |].
    rewrite P by (split; assumption). unfold row. by rewrite Ec.
Qed.

Lemma gradient_pixel x y :
  0 <= x < 256 -> 0 <= y < 256 ->
  exists c, gradient_row_color stops 256 y = Ok c /\ byte_color c = true /\
            pixel_of generate_purple_gradient x y = Ok c.
Proof.
  intros Hx Hy. destruct gradient_image as (img & E & _ & _ & _ & P).
  destruct (P x y Hx Hy) as (c & Ec & Hc & Ep).
  exists c. unfold pixel_of. rewrite E. clear E. cbn [bind].
  split; [exact Ec |]. split; [exact Hc | exact Ep].
Qed.

(** ** Squared distances *)

Lemma In_pairs n a b : 0 <= b <= a -> a <= n -> In (a, b) (pairs n).
Proof.
  intros Hb Ha. unfold pairs. apply in_flat_map. exists a. split.
  - apply list_elem_of_In, elem_of_seqZ. lia.
  - apply in_map. apply list_elem_of_In, elem_of_seqZ. lia.
Qed.

Lemma canonical_pair n dx dy :
  - n <= dx <= n -> - n <= dy <= n ->
  exists p, In p (pairs n) /\ dx * dx + dy * dy = fst p * fst p + snd p * snd p.
Proof.
  intros Hx Hy.
  exists (Z.max (Z.abs dx) (Z.abs dy), Z.min (Z.abs dx) (Z.abs dy)).
  split; [apply In_pairs; lia |]. simpl.
  rewrite <- (Z.abs_square dx), <- (Z.abs_square dy).
  destruct (Z.max_spec (Z.abs dx) (Z.abs dy)) as [[? ->] | [? ->]];
    destruct (Z.min_spec (Z.abs dx) (Z.abs dy)) as [[? ->] | [? ->]]; lia.
Qed.

Lemma forallb_pairs (P : Z -> bool) n :
  forallb (fun p => P (fst p * fst p + snd p * snd p)) (pairs n) = true ->
  forall dx dy, - n <= dx <= n -> - n <= dy <= n -> P (dx * dx + dy * dy) = true.
Proof.
  intros H dx dy Hx Hy. rewrite forallb_forall in H.
  destruct (canonical_pair n dx dy Hx Hy) as (p & Hin & ->).
  exact (H p Hin).
Qed.

(** ** The matcap *)

Lemma matcap_checked :
  forallb (fun p => matcap_check (fst p * fst p + snd p * snd p)) (pairs 128) = true.
Proof. vm_compute. reflexivity. Qed.

Lemma matcap_shade_ok dx dy :
  - 128 <= dx <= 128 -> - 128 <= dy <= 128 ->
  exists n c,
    matcap_norm_dist 128 128 (dx * dx + dy * dy) = Ok n /\
    leb (of_Z 0) n = true /\ leb n f1_0 = true /\
    matcap_channels n = Ok c /\ byte_color c = true.
Proof.
  intros Hx Hy.
  pose proof (forallb_pairs matcap_check 128 matcap_checked dx dy Hx Hy) as H.
  unfold matcap_check in H.
  destruct (matcap_norm_dist 128 128 (dx * dx + dy * dy)) as [n |] eqn:En;
    [| discriminate H].
  destruct (matcap_channels n) as [c |] eqn:Ec;
    [| rewrite andb_false_r in H; discriminate H].
  apply andb_prop in H as [H Hc]. apply andb_prop in H as [H0 H1].
  exists n, c. repeat (split; [assumption || reflexivity |]). assumption.
Qed.

Lemma matcap_pixel_byte x y :
  0 <= x < 256 -> 0 <= y < 256 ->
  exists c, matcap_pixel 128 128 x y = Ok c /\ byte_color c = true.
Proof.
  intros Hx Hy.
  destruct (matcap_shade_ok (x - 128) (y - 128)) as (n & c & En & _ & _ & Ec & Hc);
    [lia | lia |].
  exists c. unfold matcap_pixel. cbv zeta. rewrite En. cbn [bind].
  split; assumption.
Qed.

Lemma matcap_image_pixel x y :
  0 <= x < 256 -> 0 <= y < 256 ->
  pixel_of generate_matcap_texture x y = matcap_pixel 128 128 x y.
Proof.
  intros Hx Hy. unfold pixel_of, generate_matcap_texture.
  destruct (fill_image (matcap_pixel 128 128) 256 256 (Image_new RGB 256 256 [0; 0; 0]))
    as (img & E & S & P).
  { apply Image_new_wf; lia. }
  { reflexivity. }
  { reflexivity. }
  { intros. apply matcap_pixel_byte; assumption. }
  change (256 / 2) with 128. rewrite E. clear E. cbn [bind]. apply P; assumption.
Qed.

(** ** The sprites *)

Lemma sprite_samples_checked s :
  forallb (fun p => sample_check (fst p * fst p + snd p * snd p)
                      (sprite_sample s (fst p * fst p + snd p * snd p)))
          (pairs 32) = true.
Proof. destruct s; vm_compute; reflexivity. Qed.

Lemma sprite_monotone_checked s : all_pairs monotone_check (sprite_table s) = true.
Proof. destruct s; vm_compute; reflexivity. Qed.

Lemma sprite_sample_ok s dx dy :
  - 32 <= dx <= 32 -> - 32 <= dy <= 32 ->
  exists n alpha,
    sprite_norm_dist 32 (dx * dx + dy * dy) = Ok n /\
    sprite_profile s n = Ok alpha /\ 0 <= alpha <= 255 /\
    (1024 <= dx * dx + dy * dy \/ leb f1_0 n = true -> alpha = 0).
Proof.
  intros Hx Hy.
  pose proof (forallb_pairs
    (fun d2 => sample_check d2 (sprite_sample s d2)) 32
    (sprite_samples_checked s) dx dy Hx Hy) as H.
  cbv beta in H. unfold sample_check, sprite_sample in H.
  destruct (sprite_norm_dist 32 (dx * dx + dy * dy)) as [n |] eqn:En;
    [| discriminate H].
  cbn [bind] in H.
  destruct (sprite_profile s n) as [alpha |] eqn:Ea; [| discriminate H].
  cbn [bind] in H.
  apply andb_prop in H as [H H0]. apply andb_prop in H as [H1 H2].
  exists n, alpha.
  split; [reflexivity |]. split; [exact Ea |]. split; [lia |].
  intros Hout.
  assert (E : (1024 <=? dx * dx + dy * dy) || leb f1_0 n = true).
  { destruct Hout as [? | ->]; [| apply orb_true_r].
    apply orb_true_iff. left. lia. }
  rewrite E in H0. simpl in H0. lia.
Qed.

Lemma sprite_monotone s dx1 dy1 dx2 dy2 n1 n2 a1 a2 :
  - 32 <= dx1 <= 32 -> - 32 <= dy1 <= 32 ->
  - 32 <= dx2 <= 32 -> - 32 <= dy2 <= 32 ->
  sprite_norm_dist 32 (dx1 * dx1 + dy1 * dy1) = Ok n1 ->
  sprite_norm_dist 32 (dx2 * dx2 + dy2 * dy2) = Ok n2 ->
  sprite_profile s n1 = Ok a1 -> sprite_profile s n2 = Ok a2 ->
  sprite_segment s n1 = sprite_segment s n2 -> leb n1 n2 = true ->
  a2 <= a1.
Proof.
  intros Hx1 Hy1 Hx2 Hy2 E1 E2 P1 P2 Hs Hn.
  destruct (canonical_pair 32 dx1 dy1 Hx1 Hy1) as (p & Hp & Ep).
  destruct (canonical_pair 32 dx2 dy2 Hx2 Hy2) as (q & Hq & Eq).
  pose proof (sprite_monotone_checked s) as H. unfold all_pairs in H.
  rewrite forallb_forall in H.
  specialize (H (sprite_sample s (fst p * fst p + snd p * snd p))).
  rewrite forallb_forall in H.
  specialize (H (in_map _ _ _ Hp) (sprite_sample s (fst q * fst q + snd q * snd q))
                (in_map (fun p => sprite_sample s (fst p * fst p + snd p * snd p)) _ _ Hq)).
  rewrite <- Ep, <- Eq in H. unfold sprite_sample in H.
  rewrite E1, E2 in H. cbn [bind] in H. rewrite P1, P2 in H. cbn [bind] in H.
  unfold monotone_check in H. rewrite Hs, Hn, Z.eqb_refl in H. simpl in H. lia.
Qed.

Lemma sprite_pixel_byte s x y :
  0 <= x < 64 -> 0 <= y < 64 ->
  exists c, sprite_pixel (sprite_profile s) 32 x y = Ok c /\ byte_color c = true.
Proof.
  intros Hx Hy.
  destruct (sprite_sample_ok s (x - 32) (y - 32)) as (n & a & En & Ea & Hb & _);
    [lia | lia |].
  exists [255; 255; 255; a]. unfold sprite_pixel. cbv zeta.
  rewrite En. cbn [bind]. rewrite Ea. cbn [bind]. split; [reflexivity |].
  unfold byte_color. simpl. apply andb_true_intro. split; [| reflexivity].
  apply andb_true_intro. split; lia.
Qed.

Lemma sprite_generator_loop s :
  sprite_generator s tt =
    for_each (range 64) (fun y img =>
      for_each (range 64) (fun x img =>
        let* c := sprite_pixel (sprite_profile s) 32 x y in
        putpixel img (x, y) c) img) (Image_new RGBA 64 64 [0; 0; 0; 0]).
Proof.
  destruct s; cbn [sprite_generator sprite_profile];
    [unfold generate_particle_sprite | unfold generate_soft_particle_sprite];
    cbv zeta; change (64 / 2) with 32; reflexivity.
Qed.

Lemma sprite_image_pixel s x y :
  0 <= x < 64 -> 0 <= y < 64 ->
  pixel_of (sprite_generator s) x y = sprite_pixel (sprite_profile s) 32 x y.
Proof.
  intros Hx Hy.
  destruct (fill_image (sprite_pixel (sprite_profile s) 32) 64 64
              (Image_new RGBA 64 64 [0; 0; 0; 0])) as (img & E & S & P).
  { apply Image_new_wf; lia. }
  { reflexivity. }
  { reflexivity. }
  { intros. apply sprite_pixel_byte; assumption. }
  unfold pixel_of.
  replace (sprite_generator s tt) with (Ok img).
  - cbn [bind]. apply P; assumption.
  - rewrite <- E. clear E. symmetry. apply sprite_generator_loop.
Qed.

(** ** The noise image *)

Lemma Image_fromarray_L8 (width height : Z) (noise : Z -> Z -> Z) :
  0 <= width -> 0 <= height ->
  (forall y x, 0 <= y < height -> 0 <= x < width -> 0 <= noise y x < 256) ->
  L8_image (Image_fromarray width height noise).
Proof.
  intros Hw Hh Hn. split.
  - split; [exact Hw |]. split; [exact Hh |]. simpl.
    rewrite (flat_map_constant_length (c := Z.to_nat width)).
    + unfold range. rewrite length_seqZ. rewrite Z2Nat.inj_mul by lia. lia.
    + intros y _. rewrite length_map. unfold range. apply length_seqZ.
  - apply Forall_forall. intros c Hc. simpl in Hc.
    apply list_elem_of_In, in_flat_map in Hc as (y & Hy & Hc).
    apply in_map_iff in Hc as (x & <- & Hx).
    apply list_elem_of_In, elem_of_seqZ in Hy.
    apply list_elem_of_In, elem_of_seqZ in Hx.
    exists (noise y x). split; [reflexivity |].
    specialize (Hn y x). lia.
Qed.

Lemma L8_getpixel img x y :
  L8_image img -> inside img x y ->
  exists v, getpixel img (x, y) = Ok [v] /\ 0 <= v <= 255.
Proof.
  intros [Hwf Hall] Hin. rewrite getpixel_inside by assumption.
  pose proof (index_in_range img x y Hwf Hin) as Hlt.
  apply lookup_lt_is_Some_2 in Hlt as [c Hc]. rewrite Hc.
  rewrite Forall_lookup in Hall. destruct (Hall _ _ Hc) as (v & -> & Hv).
  exists v. split; [reflexivity | exact Hv].
Qed.

(** ** The generators return *)

Lemma generate_purple_gradient_returns :
  exists img, generate_purple_gradient tt = Ok img.
Proof. destruct gradient_image as (img & E & _). exists img. exact E. Qed.

Lemma generate_matcap_texture_returns :
  exists img, generate_matcap_texture tt = Ok img.
Proof.
  destruct (fill_image (matcap_pixel 128 128) 256 256 (Image_new RGB 256 256 [0; 0; 0]))
    as (img & E & _).
  { apply Image_new_wf; lia. }
  { reflexivity. }
  { reflexivity. }
  { intros. apply matcap_pixel_byte; assumption. }
  exists img. exact E.
Qed.

Lemma sprite_generator_returns s : exists img, sprite_generator s tt = Ok img.
Proof.
  destruct (fill_image (sprite_pixel (sprite_profile s) 32) 64 64
              (Image_new RGBA 64 64 [0; 0; 0; 0])) as (img & E & _).
  { apply Image_new_wf; lia. }
  { reflexivity. }
  { reflexivity. }
  { intros. apply sprite_pixel_byte; assumption. }
  exists img. rewrite <- E. clear E. apply sprite_generator_loop.
Qed.

Lemma generate_noise_texture_returns randint gaussian_blur :
  exists img, generate_noise_texture randint gaussian_blur tt = Ok img.
Proof. eexists. reflexivity. Qed.

(** ** The shape of the generated images *)

Lemma for_each_invariant {S : Type} (I : S -> Prop) (body : Z -> S -> result S) l :
  (forall i s1 s2, I s1 -> body i s1 = Ok s2 -> I s2) ->
  forall s s', I s -> for_each l body s = Ok s' -> I s'.
Proof.
  intros Hbody. induction l as [| i l IH]; intros s s' Hs E.
  - injection E as <-. exact Hs.
  - cbn [for_each] in E. destruct (body i s) as [s1 |] eqn:E1; [| discriminate E].
    cbn [bind] in E. exact (IH s1 s' (Hbody i s s1 Hs E1) E).
Qed.

Lemma putpixel_keeps_shape img0 img xy c img' :
  keeps_shape img0 img -> putpixel img xy c = Ok img' -> keeps_shape img0 img'.
Proof.
  intros [(Hm & Hw & Hh) Hl] E. unfold putpixel in E.
  destruct (in_image img _ _); [| discriminate E]. injection E as <-.
  split; [split; [| split] |]; cbn [im_mode im_width im_height im_data]; try assumption.
  rewrite length_insert. exact Hl.
Qed.

Lemma row_keeps_shape img0 (F : Z -> result color) y l img img' :
  keeps_shape img0 img ->
  for_each l (fun x img => let* c := F x in putpixel img (x, y) c) img = Ok img' ->
  keeps_shape img0 img'.
Proof.
  intros Hs E. revert img img' Hs E. apply for_each_invariant.
  intros x s1 s2 H1 E1. destruct (F x) as [c |]; [| discriminate E1].
  cbn [bind] in E1. exact (putpixel_keeps_shape _ _ _ _ _ H1 E1).
Qed.

Lemma Image_new_has_shape m w h c img :
  0 <= w -> 0 <= h -> keeps_shape (Image_new m w h c) img -> has_shape m w h img.
Proof.
  intros Hw Hh [(Hm & Hw' & Hh') Hl]. unfold has_shape.
  rewrite Hm, Hw', Hh', Hl. cbn [Image_new im_mode im_width im_height im_data].
  rewrite length_replicate. repeat split. apply Z2Nat.id. lia.
Qed.

Lemma keeps_shape_refl img : keeps_shape img img.
Proof. split; [apply same_shape_refl | reflexivity]. Qed.

Lemma gradient_shape img :
  generate_purple_gradient tt = Ok img -> has_shape RGB 256 256 img.
Proof.
  unfold generate_purple_gradient. rewrite gradient_colors_stops. cbn [bind].
  intros E. apply (Image_new_has_shape RGB 256 256 [0; 0; 0]); [lia | lia |].
  refine (for_each_invariant (keeps_shape (Image_new RGB 256 256 [0; 0; 0]))
            _ _ _ _ _ (keeps_shape_refl _) E).
  intros y s1 s2 H1 E1.
  destruct (gradient_row_color stops 256 y) as [c |]; [| discriminate E1].
  cbn [bind] in E1.
  exact (row_keeps_shape _ (fun _ => Ok c) y _ _ _ H1 E1).
Qed.

Lemma matcap_shape img :
  generate_matcap_texture tt = Ok img -> has_shape RGB 256 256 img.
Proof.
  unfold generate_matcap_texture. cbv zeta.
  intros E. apply (Image_new_has_shape RGB 256 256 [0; 0; 0]); [lia | lia |].
  refine (for_each_invariant (keeps_shape (Image_new RGB 256 256 [0; 0; 0]))
            _ _ _ _ _ (keeps_shape_refl _) E).
  intros y s1 s2 H1 E1.
  exact (row_keeps_shape _ (fun x => matcap_pixel (256 / 2) (256 / 2) x y) y _ _ _ H1 E1).
Qed.

Lemma sprite_shape s img :
  sprite_generator s tt = Ok img -> has_shape RGBA 64 64 img.
Proof.
  rewrite sprite_generator_loop.
  intros E. apply (Image_new_has_shape RGBA 64 64 [0; 0; 0; 0]); [lia | lia |].
  refine (for_each_invariant (keeps_shape (Image_new RGBA 64 64 [0; 0; 0; 0]))
            _ _ _ _ _ (keeps_shape_refl _) E).
  intros y s1 s2 H1 E1.
  exact (row_keeps_shape _ (fun x => sprite_pixel (sprite_profile s) 32 x y) y _ _ _ H1 E1).
Qed.

(** From here on the four pixel generators are used through the lemmas
    above only. *)
Opaque generate_purple_gradient generate_matcap_texture
  generate_particle_sprite generate_soft_particle_sprite.

(** ** One turn of the driver loop *)

Section DriverLoop.

Variable OUTPUT_DIR : string.
Variable save_error : Image -> string -> option exn.

Lemma process_asset_run (a : Asset) (t : list event) :
  process_asset OUTPUT_DIR save_error a t =
    ((t ++ asset_trace OUTPUT_DIR save_error a)%list,
     match asset_error OUTPUT_DIR save_error a with
     | Some e => if is_Exception e then Ok tt else Raise e
     | None => Ok tt
     end).
Proof.
  unfold process_asset, asset_trace, asset_error, try_except, io_bind, call, save,
    print, emit, output_path.
  destruct (generator a tt) as [img | e].
  - destruct (save_error img _) as [e |].
    + destruct (is_Exception e);
        unfold failure_report; rewrite <- ?app_assoc; reflexivity.
    + unfold success_report. rewrite <- ?app_assoc. reflexivity.
  - destruct (is_Exception e);
      unfold failure_report; rewrite <- ?app_assoc; reflexivity.
Qed.

Lemma calls_app t1 t2 : calls (t1 ++ t2) = (calls t1 ++ calls t2)%list.
Proof. unfold calls. apply flat_map_app. Qed.

Lemma calls_asset_trace a : calls (asset_trace OUTPUT_DIR save_error a) = [name a].
Proof.
  unfold asset_trace.
  destruct (generator a tt) as [img | e].
  - destruct (save_error img _) as [e |]; [destruct (is_Exception e) |]; reflexivity.
  - destruct (is_Exception e); reflexivity.
Qed.

Lemma asset_trace_failure a e :
  asset_error OUTPUT_DIR save_error a = Some e -> is_Exception e = true ->
  exists t1, asset_trace OUTPUT_DIR save_error a = (t1 ++ failure_report a e)%list.
Proof.
  unfold asset_error, asset_trace. intros He Hx.
  destruct (generator a tt) as [img | e'].
  - rewrite He, Hx. exists [Call (name a); Save (output_path OUTPUT_DIR a) img].
    reflexivity.
  - injection He as ->. rewrite Hx. exists [Call (name a)]. reflexivity.
Qed.

End DriverLoop.

(** * The claims *)

(** ** Gradient *)

(** C1 (as amended): in the 256 by 256 gradient, every pixel of row 0 equals
    the first stop exactly, and every pixel of row 255 equals the truncated
    interpolation between the third and the last stop at weight 253/256,
    which is (212, 126, 255); the last stop (213, 128, 255) is not reached. *)
Theorem gradient_boundary_rows colors x :
  gradient_colors = Ok colors -> 0 <= x < 256 ->
  pixel_of generate_purple_gradient x 0 = getitem colors 0 /\
  pixel_of generate_purple_gradient x 255 = Ok [212; 126; 255].
Proof.
  intros Hc Hx. rewrite gradient_colors_stops in Hc. injection Hc as <-.
  assert (R0 : gradient_row_color stops 256 0 = Ok [26; 0; 51])
    by (vm_compute; reflexivity).
  assert (R255 : gradient_row_color stops 256 255 = Ok [212; 126; 255])
    by (vm_compute; reflexivity).
  split.
  - destruct (gradient_pixel x 0) as (c & Ec & _ & ->); [lia | lia |].
    rewrite <- Ec, R0. reflexivity.
  - destruct (gradient_pixel x 255) as (c & Ec & _ & ->); [lia | lia |].
    rewrite <- Ec, R255. reflexivity.
Qed.

Lemma gradient_boundary_rows_witness :
  pixel_of generate_purple_gradient 17 0 = getitem stops 0 /\
  pixel_of generate_purple_gradient 17 255 = Ok [212; 126; 255].
Proof. apply (gradient_boundary_rows stops 17); [reflexivity | lia]. Defined.

(** C1 as stated fails: pixel (0, 255) of the last row is (212, 126, 255),
    while the final stop is (213, 128, 255). *)
Lemma gradient_last_row_counterexample :
  pixel_of generate_purple_gradient 0 255 = Ok [212; 126; 255] /\
  getitem stops 3 = Ok [213; 128; 255] /\
  pixel_of generate_purple_gradient 0 255 <> getitem stops 3.
Proof.
  assert (R255 : gradient_row_color stops 256 255 = Ok [212; 126; 255])
    by (vm_compute; reflexivity).
  destruct (gradient_pixel 0 255) as (c & Ec & _ & E); [lia | lia |].
  rewrite E, <- Ec, R255.
  split; [reflexivity |]. split; [reflexivity |]. discriminate.
Qed.

(** C8: in the gradient, any two pixels of one row hold the same colour. *)
Theorem gradient_horizontal_uniformity y x1 x2 :
  0 <= y < 256 -> 0 <= x1 < 256 -> 0 <= x2 < 256 ->
  exists c,
    pixel_of generate_purple_gradient x1 y = Ok c /\
    pixel_of generate_purple_gradient x2 y = Ok c.
Proof.
  intros Hy H1 H2.
  destruct (gradient_pixel x1 y H1 Hy) as (c1 & E1 & _ & P1).
  destruct (gradient_pixel x2 y H2 Hy) as (c2 & E2 & _ & P2).
  exists c1. split; [exact P1 |]. rewrite P2, <- E2, E1. reflexivity.
Qed.

Lemma gradient_horizontal_uniformity_witness :
  exists c,
    pixel_of generate_purple_gradient 3 100 = Ok c /\
    pixel_of generate_purple_gradient 250 100 = Ok c.
Proof. apply (gradient_horizontal_uniformity 100 3 250); lia. Defined.

(** C10: for every row [y] of the gradient the segment index is
    [floor(3 * y / 256)], at most 2 and so below [len(colors) - 1 = 3]: the
    guard that returns the last stop is never taken, and the colour of the
    row is the one the interpolation branch computes. *)
Theorem gradient_guard_unreachable colors y :
  gradient_colors = Ok colors -> 0 <= y < 256 ->
  exists segment idx,
    gradient_segment colors 256 y = Ok segment /\
    to_int segment = Ok idx /\
    idx = 3 * y / 256 /\ idx <= 2 /\ len colors - 1 = 3 /\
    (idx >=? len colors - 1) = false /\
    gradient_row_color colors 256 y = gradient_interpolate colors segment idx.
Proof.
  intros Hc Hy. rewrite gradient_colors_stops in Hc. injection Hc as <-.
  destruct (gradient_row_interpolated y Hy)
    as (segment & idx & c & Es & Ei & Hi & Hle & Ec & Er & _).
  exists segment, idx.
  split; [exact Es |]. split; [exact Ei |]. split; [exact Hi |].
  split; [exact Hle |]. split; [reflexivity |].
  split; [change (len stops - 1) with 3; lia |].
  rewrite Er, Ec. reflexivity.
Qed.

Lemma gradient_guard_unreachable_witness :
  exists segment idx,
    gradient_segment stops 256 255 = Ok segment /\
    to_int segment = Ok idx /\
    idx = 3 * 255 / 256 /\ idx <= 2 /\ len stops - 1 = 3 /\
    (idx >=? len stops - 1) = false /\
    gradient_row_color stops 256 255 = gradient_interpolate stops segment idx.
Proof. apply (gradient_guard_unreachable stops 255); [reflexivity | lia]. Defined.

(** ** Matcap *)

(** C6: every pixel of the matcap is
    (int(255*(1 - n*0.8)), int(255*(1 - n*0.8)), int(255*(1 - n*0.5)))
    for [n = min(d / dmax, 1.0)], which lies in [0, 1]; the three channels
    are within [0, 255] as computed, so the store clips nothing; and the
    centre pixel is (255, 255, 255). *)
Theorem matcap_pixel_formula x y :
  0 <= x < 256 -> 0 <= y < 256 ->
  (exists q n r g b,
     div (pow_half ((x - 128) * (x - 128) + (y - 128) * (y - 128)))
         (pow_half (128 ^ 2 + 128 ^ 2)) = Ok q /\
     n = min q f1_0 /\ leb (of_Z 0) n = true /\ leb n f1_0 = true /\
     to_int (mul (of_Z 255) (sub (of_Z 1) (mul n f0_8))) = Ok r /\
     to_int (mul (of_Z 255) (sub (of_Z 1) (mul n f0_8))) = Ok g /\
     to_int (mul (of_Z 255) (sub (of_Z 1) (mul n f0_5))) = Ok b /\
     pixel_of generate_matcap_texture x y = Ok [r; g; b] /\
     0 <= r <= 255 /\ 0 <= g <= 255 /\ 0 <= b <= 255) /\
  pixel_of generate_matcap_texture 128 128 = Ok [255; 255; 255].
Proof.
  intros Hx Hy. split.
  - destruct (matcap_shade_ok (x - 128) (y - 128)) as (n & c & En & H0 & H1 & Ec & Hc);
      [lia | lia |].
    rewrite matcap_image_pixel by assumption.
    unfold matcap_pixel. cbv zeta. rewrite En. cbn [bind].
    unfold matcap_norm_dist in En. cbv zeta in En.
    destruct (div (pow_half ((x - 128) * (x - 128) + (y - 128) * (y - 128)))
                  (pow_half (128 ^ 2 + 128 ^ 2))) as [q |] eqn:Eq;
      [| discriminate En].
    cbn [bind] in En. injection En as En.
    unfold matcap_channels in Ec |- *.
    destruct (to_int (mul (of_Z 255) (sub (of_Z 1) (mul n f0_8)))) as [r |] eqn:Er;
      [| discriminate Ec].
    cbn [bind] in Ec |- *.
    destruct (to_int (mul (of_Z 255) (sub (of_Z 1) (mul n f0_5)))) as [b |] eqn:Eb;
      [| discriminate Ec].
    cbn [bind] in Ec |- *. injection Ec as <-.
    unfold byte_color in Hc. simpl in Hc.
    apply andb_prop in Hc as [Hr Hc]. apply andb_prop in Hc as [_ Hc].
    apply andb_prop in Hc as [Hb _].
    exists q, n, r, r, b.
    split; [reflexivity |]. split; [symmetry; exact En |].
    split; [exact H0 |]. split; [exact H1 |].
    split; [exact Er |]. split; [exact Er |]. split; [exact Eb |].
    split; [reflexivity |]. lia.
  - rewrite matcap_image_pixel by lia. vm_compute. reflexivity.
Qed.

Lemma matcap_pixel_formula_witness :
  (exists q n r g b,
     div (pow_half ((0 - 128) * (0 - 128) + (0 - 128) * (0 - 128)))
         (pow_half (128 ^ 2 + 128 ^ 2)) = Ok q /\
     n = min q f1_0 /\ leb (of_Z 0) n = true /\ leb n f1_0 = true /\
     to_int (mul (of_Z 255) (sub (of_Z 1) (mul n f0_8))) = Ok r /\
     to_int (mul (of_Z 255) (sub (of_Z 1) (mul n f0_8))) = Ok g /\
     to_int (mul (of_Z 255) (sub (of_Z 1) (mul n f0_5))) = Ok b /\
     pixel_of generate_matcap_texture 0 0 = Ok [r; g; b] /\
     0 <= r <= 255 /\ 0 <= g <= 255 /\ 0 <= b <= 255) /\
  pixel_of generate_matcap_texture 128 128 = Ok [255; 255; 255].
Proof. apply (matcap_pixel_formula 0 0); lia. Defined.

(** The corner pixel, where [n = 1.0]: red is 50, not 51, because
    [1 - 0.8] rounds to a double just below 0.2. *)
Example matcap_corner :
  pixel_of generate_matcap_texture 0 0 = Ok [50; 50; 127].
Proof. rewrite matcap_image_pixel by lia. vm_compute. reflexivity. Qed.

(** C7: two pixels of the matcap at the same distance from the centre
    (128, 128) hold the same colour. *)
Theorem matcap_radial_symmetry x1 y1 x2 y2 :
  0 <= x1 < 256 -> 0 <= y1 < 256 -> 0 <= x2 < 256 -> 0 <= y2 < 256 ->
  (x1 - 128) * (x1 - 128) + (y1 - 128) * (y1 - 128) =
  (x2 - 128) * (x2 - 128) + (y2 - 128) * (y2 - 128) ->
  exists c,
    pixel_of generate_matcap_texture x1 y1 = Ok c /\
    pixel_of generate_matcap_texture x2 y2 = Ok c.
Proof.
  intros Hx1 Hy1 Hx2 Hy2 Hd.
  destruct (matcap_pixel_byte x1 y1 Hx1 Hy1) as (c & Ec & _).
  exists c.
  rewrite (matcap_image_pixel x1 y1 Hx1 Hy1), (matcap_image_pixel x2 y2 Hx2 Hy2).
  split; [exact Ec |]. rewrite <- Ec. unfold matcap_pixel. cbv zeta.
  rewrite Hd. reflexivity.
Qed.

Lemma matcap_radial_symmetry_witness :
  exists c,
    pixel_of generate_matcap_texture 131 124 = Ok c /\
    pixel_of generate_matcap_texture 123 128 = Ok c.
Proof. apply (matcap_radial_symmetry 131 124 123 128); lia. Defined.

(** ** Sprites *)

(** C5: in either sprite, a pixel whose normalised distance is at least
    1.0 (its squared distance from the centre is at least 32 * 32, or the
    clamped [norm_dist] the code computes is at least 1.0) has alpha 0; and
    of two pixels in the same piece of the profile,
    the one with the larger normalised distance has no larger an alpha. *)
Theorem sprite_alpha_profile (s : sprite) x1 y1 x2 y2 :
  0 <= x1 < 64 -> 0 <= y1 < 64 -> 0 <= x2 < 64 -> 0 <= y2 < 64 ->
  exists n1 n2 a1 a2,
    sprite_norm_dist 32 ((x1 - 32) * (x1 - 32) + (y1 - 32) * (y1 - 32)) = Ok n1 /\
    sprite_norm_dist 32 ((x2 - 32) * (x2 - 32) + (y2 - 32) * (y2 - 32)) = Ok n2 /\
    pixel_of (sprite_generator s) x1 y1 = Ok [255; 255; 255; a1] /\
    pixel_of (sprite_generator s) x2 y2 = Ok [255; 255; 255; a2] /\
    (1024 <= (x1 - 32) * (x1 - 32) + (y1 - 32) * (y1 - 32) \/ leb f1_0 n1 = true ->
     a1 = 0) /\
    (sprite_segment s n1 = sprite_segment s n2 -> leb n1 n2 = true -> a2 <= a1).
Proof.
  intros Hx1 Hy1 Hx2 Hy2.
  destruct (sprite_sample_ok s (x1 - 32) (y1 - 32)) as (n1 & a1 & En1 & Ea1 & _ & Z1);
    [lia | lia |].
  destruct (sprite_sample_ok s (x2 - 32) (y2 - 32)) as (n2 & a2 & En2 & Ea2 & _ & _);
    [lia | lia |].
  exists n1, n2, a1, a2.
  split; [exact En1 |]. split; [exact En2 |].
  rewrite (sprite_image_pixel s x1 y1 Hx1 Hy1), (sprite_image_pixel s x2 y2 Hx2 Hy2).
  unfold sprite_pixel. cbv zeta.
  rewrite En1, En2. cbn [bind]. rewrite Ea1, Ea2. cbn [bind].
  split; [reflexivity |]. split; [reflexivity |]. split.
  - exact Z1.
  - intros Hs Hn.
    apply (sprite_monotone s (x1 - 32) (y1 - 32) (x2 - 32) (y2 - 32) n1 n2);
      try assumption; lia.
Qed.

Lemma sprite_alpha_profile_witness :
  exists n1 n2 a1 a2,
    sprite_norm_dist 32 ((40 - 32) * (40 - 32) + (32 - 32) * (32 - 32)) = Ok n1 /\
    sprite_norm_dist 32 ((44 - 32) * (44 - 32) + (32 - 32) * (32 - 32)) = Ok n2 /\
    pixel_of (sprite_generator Glow) 40 32 = Ok [255; 255; 255; a1] /\
    pixel_of (sprite_generator Glow) 44 32 = Ok [255; 255; 255; a2] /\
    (1024 <= (40 - 32) * (40 - 32) + (32 - 32) * (32 - 32) \/ leb f1_0 n1 = true ->
     a1 = 0) /\
    (sprite_segment Glow n1 = sprite_segment Glow n2 -> leb n1 n2 = true -> a2 <= a1).
Proof. apply (sprite_alpha_profile Glow 40 32 44 32); lia. Defined.

(** The two pixels of the witness are in the first slope of the glow
    profile, with alpha 246 and 225. *)
Example glow_first_slope :
  pixel_of generate_particle_sprite 40 32 = Ok [255; 255; 255; 246] /\
  pixel_of generate_particle_sprite 44 32 = Ok [255; 255; 255; 225] /\
  pixel_of generate_particle_sprite 0 32 = Ok [255; 255; 255; 0].
Proof.
  change generate_particle_sprite with (sprite_generator Glow).
  rewrite (sprite_image_pixel Glow 40 32), (sprite_image_pixel Glow 44 32),
    (sprite_image_pixel Glow 0 32) by lia.
  vm_compute. repeat split.
Qed.

(** C2: the values of the adjacent branch formulas at the four
    breakpoints.  The glow profile is continuous at 0.2 (255) and at 0.5
    (204) and the soft profile at 0.3 (153); at 0.7 the soft profile jumps
    from 0 up to 45, and the image shows it: alpha 0 at squared distance
    500, alpha 45 at squared distance 505. *)
Theorem sprite_breakpoint_values :
  (glow_mid f0_2 = Ok 255 /\ glow_mid f0_5 = Ok 204 /\ glow_outer f0_5 = Ok 204) /\
  (soft_core = Ok 153 /\ soft_mid f0_3 = Ok 153) /\
  (soft_mid f0_7 = Ok 0 /\ soft_outer f0_7 = Ok 45) /\
  (pixel_of generate_soft_particle_sprite 42 52 = Ok [255; 255; 255; 0] /\
   pixel_of generate_soft_particle_sprite 40 53 = Ok [255; 255; 255; 45]).
Proof.
  split; [vm_compute; repeat split |].
  split; [vm_compute; repeat split |].
  split; [vm_compute; repeat split |].
  change generate_soft_particle_sprite with (sprite_generator Soft).
  rewrite (sprite_image_pixel Soft 42 52), (sprite_image_pixel Soft 40 53) by lia.
  vm_compute. repeat split.
Qed.

(** ** Noise *)

Section NoiseRange.

Variable randint : Z -> Z -> Z.
Variable gaussian_blur : Z -> Image -> Image.

(** [randint(0, 256)] draws from [0, 256). *)
Hypothesis randint_range :
  forall y x, 0 <= y < 512 -> 0 <= x < 512 -> 0 <= randint y x < 256.

(** The blur maps an 8-bit image of mode [L] to one of the same size. *)
Hypothesis gaussian_blur_L8 :
  forall radius img,
    L8_image img -> L8_image (gaussian_blur radius img) /\
                    same_shape img (gaussian_blur radius img).

(** C9: whatever the random source draws within [0, 255], and for any blur
    that maps 8-bit images to 8-bit images of the same size, the generator
    returns, and every pixel of its 512 by 512 image lies in [0, 255]. *)
Theorem noise_pixels_in_range x y :
  0 <= x < 512 -> 0 <= y < 512 ->
  exists v,
    pixel_of (generate_noise_texture randint gaussian_blur) x y = Ok [v] /\
    0 <= v <= 255.
Proof.
  intros Hx Hy. unfold pixel_of, generate_noise_texture. cbv zeta. cbn [bind].
  assert (H0 : L8_image (Image_fromarray 512 512 randint)).
  { apply Image_fromarray_L8; [lia | lia | exact randint_range]. }
  destruct (gaussian_blur_L8 1 _ H0) as [H1 (_ & Sw & Sh)].
  apply L8_getpixel; [exact H1 |].
  split; [rewrite Sw | rewrite Sh]; simpl; lia.
Qed.

End NoiseRange.

Lemma noise_pixels_in_range_witness :
  exists v,
    pixel_of (generate_noise_texture (fun _ _ => 7) (fun _ img => img)) 5 9 = Ok [v] /\
    0 <= v <= 255.
Proof.
  apply (noise_pixels_in_range (fun _ _ => 7) (fun _ img => img)).
  - intros. lia.
  - intros radius img H. split; [exact H | apply same_shape_refl].
  - lia.
  - lia.
Defined.

(** ** Driver *)

(** C4: whichever assets fail to generate or to be written with an error
    (an instance of [Exception]), the loop returns normally, it has called
    the generator of every entry of the manifest in order, and for each
    failing asset the trace holds its two report lines: the one that names
    it and the one with the text of the error. *)
Theorem driver_loop_isolates_failures (OUTPUT_DIR : string)
    (save_error : Image -> string -> option exn) (l : list Asset) (t : list event) :
  (forall a e, In a l -> asset_error OUTPUT_DIR save_error a = Some e -> is_Exception e = true) ->
  exists t',
    io_for l (process_asset OUTPUT_DIR save_error) t = ((t ++ t')%list, Ok tt) /\
    calls t' = map name l /\
    forall a e, In a l -> asset_error OUTPUT_DIR save_error a = Some e ->
      exists t1 t2, t' = (t1 ++ failure_report a e ++ t2)%list.
Proof.
  revert t. induction l as [| a l IH]; intros t Hexc.
  - exists []. simpl. rewrite app_nil_r. split; [reflexivity |].
    split; [reflexivity |]. intros a e [].
  - destruct (IH (t ++ asset_trace OUTPUT_DIR save_error a)%list) as (t' & Erun & Hcalls & Hrep).
    { intros b e Hb. apply Hexc. right. exact Hb. }
    exists (asset_trace OUTPUT_DIR save_error a ++ t')%list. split; [| split].
    + simpl. unfold io_bind. rewrite process_asset_run.
      destruct (asset_error OUTPUT_DIR save_error a) as [e |] eqn:Ea.
      * rewrite (Hexc a e (or_introl eq_refl) Ea). rewrite Erun.
        rewrite <- app_assoc. reflexivity.
      * rewrite Erun. rewrite <- app_assoc. reflexivity.
    + rewrite calls_app, calls_asset_trace, Hcalls. reflexivity.
    + intros b e [<- | Hb] Hb_err.
      * destruct (asset_trace_failure OUTPUT_DIR save_error a e Hb_err) as (t1 & ->).
        { apply (Hexc a e); [left; reflexivity | exact Hb_err]. }
        exists t1, t'. rewrite <- app_assoc. reflexivity.
      * destruct (Hrep b e Hb Hb_err) as (t1 & t2 & ->).
        exists (asset_trace OUTPUT_DIR save_error a ++ t1)%list, t2. rewrite <- app_assoc. reflexivity.
Qed.

Lemma driver_loop_isolates_failures_witness :
  let broken := {| name := "broken.png"; path := "textures";
                   generator := fun _ => Raise (Exn ValueError "no pixels");
                   description := "An asset whose generator raises" |} in
  let refused := {| name := "refused.png"; path := "sprites";
                    generator := fun _ => Ok (Image_new L 1 1 [0]);
                    description := "An asset whose write is refused" |} in
  let written := {| name := "written.png"; path := "sprites";
                    generator := fun _ => Ok (Image_new L 1 1 [0]);
                    description := "An asset that is written" |} in
  let save_error := fun (_ : Image) (p : string) =>
    if String.eqb p "/out/sprites/refused.png"
    then Some (Exn PermissionError "[Errno 13] Permission denied")
    else None in
  exists t',
    io_for [broken; refused; written] (process_asset "/out" save_error) [] =
      (([] ++ t')%list, Ok tt) /\
    calls t' = ["broken.png"; "refused.png"; "written.png"] /\
    forall a e, In a [broken; refused; written] ->
      asset_error "/out" save_error a = Some e ->
      exists t1 t2, t' = (t1 ++ failure_report a e ++ t2)%list.
Proof.
  intros broken refused written save_error.
  apply (driver_loop_isolates_failures "/out" save_error [broken; refused; written] []).
  intros a e [<- | [<- | [<- | []]]] He; vm_compute in He.
  - injection He as <-. reflexivity.
  - injection He as <-. reflexivity.
  - discriminate He.
Defined.

(** C3 (as amended): when creating the first directory raises, that error
    leaves [main] at once: nothing but the banner is printed and no asset is
    attempted.  When the directories can be created and every image write
    raises an error, all five generators are called and all five writes
    attempted, each asset is reported as failed with the text of its error,
    the closing line is printed and [main] returns normally. *)
Theorem main_on_unwritable_root
    (OUTPUT_DIR : string) (mkdir_error : string -> option exn)
    (save_error : Image -> string -> option exn)
    (randint : Z -> Z -> Z) (gaussian_blur : Z -> Image -> Image)
    (t : list event) :
  (forall e, mkdir_error (path_join OUTPUT_DIR "textures") = Some e ->
     main OUTPUT_DIR mkdir_error save_error randint gaussian_blur t =
       ((t ++ [Print "Generating Prism Digital assets...
";
               Mkdir (path_join OUTPUT_DIR "textures")])%list, Raise e)) /\
  (forall err : string -> exn,
     (forall p, mkdir_error p = None) ->
     (forall img p, save_error img p = Some (err p)) ->
     (forall p, is_Exception (err p) = true) ->
     exists t',
       main OUTPUT_DIR mkdir_error save_error randint gaussian_blur t =
         ((t ++ t')%list, Ok tt) /\
       calls t' = ["purple-gradient.png"; "noise.png"; "matcap-metallic.png";
                   "particle-glow.png"; "particle-soft.png"] /\
       saved_paths t' = map (output_path OUTPUT_DIR) (assets randint gaussian_blur) /\
       prints t' =
         ("Generating Prism Digital assets...
" :: flat_map (fun a => prints (failure_report a (err (output_path OUTPUT_DIR a))))
              (assets randint gaussian_blur) ++
         ["Asset generation complete!
"])%list).
Proof.
  split.
  - intros e He. unfold main, ensure_directories, mkdir. rewrite He.
    cbv beta iota delta [io_bind emit print]. rewrite <- app_assoc. reflexivity.
  - intros err Hmk Hsave Hexc.
    destruct generate_purple_gradient_returns as (i1 & E1).
    destruct (generate_noise_texture_returns randint gaussian_blur) as (i2 & E2).
    destruct generate_matcap_texture_returns as (i3 & E3).
    destruct (sprite_generator_returns Glow) as (i4 & E4).
    destruct (sprite_generator_returns Soft) as (i5 & E5).
    cbn [sprite_generator] in E4, E5.
    eexists.
    unfold main, ensure_directories, mkdir. rewrite !Hmk.
    unfold assets. cbn [io_for].
    cbv beta iota delta [io_bind emit print].
    rewrite !process_asset_run. unfold asset_error, asset_trace.
    cbn [generator name path description].
    rewrite E1, E2, E3, E4, E5. clear E1 E2 E3 E4 E5.
    rewrite !Hsave, !Hexc.
    cbv beta iota.
    rewrite <- !app_assoc.
    split; [reflexivity |].
    split; [reflexivity |].
    split; [reflexivity |]. reflexivity.
Qed.

Lemma main_on_unwritable_root_witness :
  main "/out" refuse_mkdir refuse_save (fun _ _ => 7) (fun _ img => img) [] =
    (([] ++ [Print "Generating Prism Digital assets...
";
             Mkdir (path_join "/out" "textures")])%list,
     Raise (permission_denied "/out/textures")) /\
  exists t',
    main "/out" (fun _ => None) refuse_save (fun _ _ => 7) (fun _ img => img) [] =
      (([] ++ t')%list, Ok tt) /\
    calls t' = ["purple-gradient.png"; "noise.png"; "matcap-metallic.png";
                "particle-glow.png"; "particle-soft.png"] /\
    saved_paths t' =
      map (output_path "/out") (assets (fun _ _ => 7) (fun _ img => img)) /\
    prints t' =
      ("Generating Prism Digital assets...
" :: flat_map (fun a => prints (failure_report a (permission_denied (output_path "/out" a))))
           (assets (fun _ _ => 7) (fun _ img => img)) ++
      ["Asset generation complete!
"])%list.
Proof.
  split.
  - apply (proj1 (main_on_unwritable_root "/out" refuse_mkdir refuse_save
                    (fun _ _ => 7) (fun _ img => img) [])).
    reflexivity.
  - apply (proj2 (main_on_unwritable_root "/out" (fun _ => None) refuse_save
                    (fun _ _ => 7) (fun _ img => img) []) permission_denied).
    + intros p. reflexivity.
    + intros img p. reflexivity.
    + intros p. reflexivity.
Defined.

(** C3 as stated fails: on a root where every directory creation and every
    write is refused, [main] raises the error of the first [mkdir]; it has
    printed the banner only and called no generator. *)
Lemma main_read_only_counterexample :
  snd (main "/out" refuse_mkdir refuse_save (fun _ _ => 7) (fun _ img => img) []) =
    Raise (permission_denied "/out/textures") /\
  snd (main "/out" refuse_mkdir refuse_save (fun _ _ => 7) (fun _ img => img) []) <>
    Ok tt /\
  calls (fst (main "/out" refuse_mkdir refuse_save (fun _ _ => 7) (fun _ img => img) [])) = [] /\
  prints (fst (main "/out" refuse_mkdir refuse_save (fun _ _ => 7) (fun _ img => img) [])) =
    ["Generating Prism Digital assets...
"].
Proof.
  assert (E : main "/out" refuse_mkdir refuse_save (fun _ _ => 7) (fun _ img => img) [] =
              ([Print "Generating Prism Digital assets...
"; Mkdir "/out/textures"], Raise (permission_denied "/out/textures")))
    by reflexivity.
  rewrite E. simpl.
  split; [reflexivity |]. split; [discriminate |]. split; reflexivity.
Qed.

(** * Further properties *)

(** ** Decoding colours *)

Lemma hex2_checked : forallb hex2_check (range 256) = true.
Proof. vm_compute. reflexivity. Qed.

Lemma int16_hex2 upper v : 0 <= v < 256 -> int16 (hex2 upper v) = Ok v.
Proof.
  intros Hv. pose proof (forallb_range _ _ hex2_checked v Hv) as H.
  unfold hex2_check in H. rewrite forallb_forall in H.
  specialize (H upper). 
  destruct (int16 (hex2 upper v)) as [z |].
  - assert (Hin : In upper [false; true]) by (destruct upper; simpl; auto).
    apply H in Hin. apply andb_prop in Hin as [Hz _]. f_equal. lia.
  - assert (Hin : In upper [false; true]) by (destruct upper; simpl; auto).
    apply H in Hin. discriminate Hin.
Qed.

Lemma hex2_not_hash upper v :
  0 <= v < 256 -> Ascii.eqb (hex_char upper (v / 16)) "#"%char = false.
Proof.
  intros Hv. pose proof (forallb_range _ _ hex2_checked v Hv) as H.
  unfold hex2_check in H. rewrite forallb_forall in H.
  assert (Hin : In upper [false; true]) by (destruct upper; simpl; auto).
  apply H in Hin. destruct (int16 (hex2 upper v)); [| discriminate Hin].
  apply andb_prop in Hin as [_ Hc]. apply negb_true_iff in Hc. exact Hc.
Qed.

Lemma slice_pairs a1 a2 b1 b2 c1 c2 rest :
  slice (String a1 (String a2 (String b1 (String b2 (String c1 (String c2 rest))))))
        0 (0 + 2) = String a1 (String a2 EmptyString) /\
  slice (String a1 (String a2 (String b1 (String b2 (String c1 (String c2 rest))))))
        2 (2 + 2) = String b1 (String b2 EmptyString) /\
  slice (String a1 (String a2 (String b1 (String b2 (String c1 (String c2 rest))))))
        4 (4 + 2) = String c1 (String c2 EmptyString).
Proof.
  unfold slice.
  change (Z.to_nat 0) with 0%nat. change (Z.to_nat 2) with 2%nat.
  change (Z.to_nat 4) with 4%nat. change (Z.to_nat (0 + 2 - 0)) with 2%nat.
  change (Z.to_nat (2 + 2 - 2)) with 2%nat. change (Z.to_nat (4 + 2 - 4)) with 2%nat.
  cbn [substring]. repeat split. destruct rest; reflexivity.
Qed.

Lemma lstrip_hashes n s : lstrip "#"%char (hashes n ++ s) = lstrip "#"%char s.
Proof. induction n as [| n IH]; [reflexivity | exact IH]. Qed.

(** X1: decoding inverts the two-digit hexadecimal encoding of three
    bytes, whatever the case of the digits, with any number of leading
    number signs (none included), and whatever follows the sixth digit. *)
Theorem hex_to_rgb_round_trip (n : nat) (u1 u2 u3 : bool) (r g b : Z) (rest : string) :
  0 <= r < 256 -> 0 <= g < 256 -> 0 <= b < 256 ->
  hex_to_rgb (hashes n ++ hex2 u1 r ++ hex2 u2 g ++ hex2 u3 b ++ rest) = Ok [r; g; b].
Proof.
  intros Hr Hg Hb. unfold hex_to_rgb. rewrite lstrip_hashes.
  assert (Hs : lstrip "#"%char (hex2 u1 r ++ hex2 u2 g ++ hex2 u3 b ++ rest) =
               (hex2 u1 r ++ hex2 u2 g ++ hex2 u3 b ++ rest)%string).
  { unfold hex2 at 1. cbn [append lstrip]. rewrite (hex2_not_hash u1 r Hr). reflexivity. }
  rewrite Hs. cbn [tuple_of]. unfold hex2. cbn [append].
  destruct (slice_pairs (hex_char u1 (r / 16)) (hex_char u1 (r mod 16))
              (hex_char u2 (g / 16)) (hex_char u2 (g mod 16))
              (hex_char u3 (b / 16)) (hex_char u3 (b mod 16)) rest)
    as (S0 & S2 & S4).
  rewrite S0, S2, S4.
  fold (hex2 u1 r). fold (hex2 u2 g). fold (hex2 u3 b).
  rewrite (int16_hex2 u1 r Hr), (int16_hex2 u2 g Hg), (int16_hex2 u3 b Hb).
  reflexivity.
Qed.

Lemma hex_to_rgb_round_trip_witness :
  hex_to_rgb (hashes 1 ++ hex2 false 213 ++ hex2 true 128 ++ hex2 false 255 ++ "80") =
    Ok [213; 128; 255].
Proof. apply (hex_to_rgb_round_trip 1 false true false 213 128 255 "80"); lia. Defined.

Lemma int16_raises s e : int16 s = Raise e -> exn_class e = ValueError.
Proof.
  unfold int16. destruct s as [| c s]; [intros H; injection H as <-; reflexivity |].
  destruct (hex_digits (String c s) 0); [discriminate |].
  intros H. injection H as <-. reflexivity.
Qed.

Lemma slice_short s : (String.length s <= 4)%nat -> slice s 4 (4 + 2) = EmptyString.
Proof.
  intros H. unfold slice. change (Z.to_nat 4) with 4%nat.
  change (Z.to_nat (4 + 2 - 4)) with 2%nat.
  destruct s as [| c1 [| c2 [| c3 [| c4 [| c5 s]]]]]; try reflexivity.
  simpl in H. lia.
Qed.

(** X2: a string with fewer than five characters after its leading number
    signs has no third pair of digits: decoding it raises [ValueError]. *)
Theorem hex_to_rgb_short (s : string) :
  (String.length (lstrip "#"%char s) <= 4)%nat ->
  exists e, hex_to_rgb s = Raise e /\ exn_class e = ValueError.
Proof.
  intros H. unfold hex_to_rgb. cbn [tuple_of].
  destruct (int16 (slice (lstrip "#"%char s) 0 (0 + 2))) as [r | e] eqn:E0; cbn [bind].
  2: { exists e. split; [reflexivity | exact (int16_raises _ _ E0)]. }
  destruct (int16 (slice (lstrip "#"%char s) 2 (2 + 2))) as [g | e] eqn:E2; cbn [bind].
  2: { exists e. split; [reflexivity | exact (int16_raises _ _ E2)]. }
  rewrite (slice_short _ H). cbn [int16 bind].
  eexists. split; reflexivity.
Qed.

Lemma hex_to_rgb_short_witness :
  exists e, hex_to_rgb "#fff" = Raise e /\ exn_class e = ValueError.
Proof. apply (hex_to_rgb_short "#fff"). simpl. lia. Defined.

(** ** The generated images *)

(** X3: each of the four pixel generators returns, and its image has the
    mode and the size its docstring gives, with one colour per pixel in the
    buffer: RGB 256 by 256 for the gradient and the matcap, RGBA 64 by 64
    for the two sprites. *)
Theorem generated_image_shapes :
  (exists img, generate_purple_gradient tt = Ok img /\ has_shape RGB 256 256 img) /\
  (exists img, generate_matcap_texture tt = Ok img /\ has_shape RGB 256 256 img) /\
  (exists img, generate_particle_sprite tt = Ok img /\ has_shape RGBA 64 64 img) /\
  (exists img, generate_soft_particle_sprite tt = Ok img /\ has_shape RGBA 64 64 img).
Proof.
  split; [| split; [| split]].
  - destruct generate_purple_gradient_returns as (img & E).
    exists img. split; [exact E | exact (gradient_shape img E)].
  - destruct generate_matcap_texture_returns as (img & E).
    exists img. split; [exact E | exact (matcap_shape img E)].
  - destruct (sprite_generator_returns Glow) as (img & E).
    exists img. split; [exact E | exact (sprite_shape Glow img E)].
  - destruct (sprite_generator_returns Soft) as (img & E).
    exists img. split; [exact E | exact (sprite_shape Soft img E)].
Qed.

Lemma gradient_triples_checked : forallb gradient_triple_check (range 256) = true.
Proof. vm_compute. reflexivity. Qed.

Lemma gradient_steps_checked : forallb gradient_step_check (range 255) = true.
Proof. vm_compute. reflexivity. Qed.

Lemma gradient_row_rgb y :
  0 <= y < 256 ->
  gradient_row_color stops 256 y =
    Ok [fst (fst (gradient_rgb y)); snd (fst (gradient_rgb y)); snd (gradient_rgb y)].
Proof.
  intros Hy. pose proof (forallb_range _ _ gradient_triples_checked y Hy) as H.
  unfold gradient_triple_check in H. unfold gradient_rgb.
  destruct (gradient_row_color stops 256 y) as [[| r [| g [| b [| ? ?]]]] |];
    try discriminate H.
  reflexivity.
Qed.

Lemma rgb_le_refl p : rgb_le p p = true.
Proof.
  destruct p as [[r g] b]. unfold rgb_le.
  rewrite !Z.leb_refl. reflexivity.
Qed.

Lemma rgb_le_trans p q r : rgb_le p q = true -> rgb_le q r = true -> rgb_le p r = true.
Proof.
  destruct p as [[r1 g1] b1], q as [[r2 g2] b2], r as [[r3 g3] b3]. unfold rgb_le.
  intros H1 H2.
  apply andb_prop in H1 as [H1 Hb1]. apply andb_prop in H1 as [Hr1 Hg1].
  apply andb_prop in H2 as [H2 Hb2]. apply andb_prop in H2 as [Hr2 Hg2].
  repeat (apply andb_true_intro; split); lia.
Qed.

Lemma gradient_rgb_monotone (n : nat) :
  forall y, 0 <= y -> y + Z.of_nat n < 256 ->
  rgb_le (gradient_rgb y) (gradient_rgb (y + Z.of_nat n)) = true.
Proof.
  induction n as [| n IH]; intros y Hy Hn.
  - replace (y + Z.of_nat 0) with y by lia. apply rgb_le_refl.
  - apply (rgb_le_trans _ (gradient_rgb (y + Z.of_nat n))).
    + apply IH; lia.
    + replace (y + Z.of_nat (S n)) with (y + Z.of_nat n + 1) by lia.
      apply (forallb_range _ _ gradient_steps_checked). lia.
Qed.

(** X4: down the gradient no channel ever decreases: for two pixels in
    rows [y1 <= y2], each of the three channels (all within [0, 255]) of
    the upper one is at most that of the lower one. *)
Theorem gradient_rows_monotone x1 y1 x2 y2 :
  0 <= x1 < 256 -> 0 <= x2 < 256 -> 0 <= y1 -> y1 <= y2 -> y2 < 256 ->
  exists r1 g1 b1 r2 g2 b2,
    pixel_of generate_purple_gradient x1 y1 = Ok [r1; g1; b1] /\
    pixel_of generate_purple_gradient x2 y2 = Ok [r2; g2; b2] /\
    (0 <= r1 /\ r1 <= r2 /\ r2 <= 255) /\
    (0 <= g1 /\ g1 <= g2 /\ g2 <= 255) /\
    (0 <= b1 /\ b1 <= b2 /\ b2 <= 255).
Proof.
  intros Hx1 Hx2 Hy1 Hle Hy2.
  destruct (gradient_pixel x1 y1) as (c1 & E1 & B1 & P1); [lia | lia |].
  destruct (gradient_pixel x2 y2) as (c2 & E2 & B2 & P2); [lia | lia |].
  rewrite gradient_row_rgb in E1 by lia. rewrite gradient_row_rgb in E2 by lia.
  injection E1 as <-. injection E2 as <-.
  pose proof (gradient_rgb_monotone (Z.to_nat (y2 - y1)) y1 Hy1) as M.
  replace (y1 + Z.of_nat (Z.to_nat (y2 - y1))) with y2 in M by lia.
  specialize (M Hy2).
  destruct (gradient_rgb y1) as [[r1 g1] b1], (gradient_rgb y2) as [[r2 g2] b2].
  cbn [fst snd] in *. unfold rgb_le in M.
  apply andb_prop in M as [M Mb]. apply andb_prop in M as [Mr Mg].
  unfold byte_color in B1, B2. cbn [forallb] in B1, B2.
  apply andb_prop in B1 as [Br1 B1]. apply andb_prop in B1 as [Bg1 B1].
  apply andb_prop in B1 as [Bb1 _].
  apply andb_prop in B2 as [Br2 B2]. apply andb_prop in B2 as [Bg2 B2].
  apply andb_prop in B2 as [Bb2 _].
  exists r1, g1, b1, r2, g2, b2.
  split; [exact P1 |]. split; [exact P2 |]. lia.
Qed.

Lemma gradient_rows_monotone_witness :
  exists r1 g1 b1 r2 g2 b2,
    pixel_of generate_purple_gradient 10 85 = Ok [r1; g1; b1] /\
    pixel_of generate_purple_gradient 200 86 = Ok [r2; g2; b2] /\
    (0 <= r1 /\ r1 <= r2 /\ r2 <= 255) /\
    (0 <= g1 /\ g1 <= g2 /\ g2 <= 255) /\
    (0 <= b1 /\ b1 <= b2 /\ b2 <= 255).
Proof. apply (gradient_rows_monotone 10 85 200 86); lia. Defined.

Lemma gradient_between_checked : forallb gradient_between_check (range 256) = true.
Proof. vm_compute. reflexivity. Qed.

(** X13: every pixel of row [y] of the gradient lies, channel by channel,
    between the stop of index [floor(3 * y / 256)] and the next one. *)
Theorem gradient_between_stops x y :
  0 <= x < 256 -> 0 <= y < 256 ->
  exists r g b r0 g0 b0 r1 g1 b1,
    pixel_of generate_purple_gradient x y = Ok [r; g; b] /\
    getitem stops (3 * y / 256) = Ok [r0; g0; b0] /\
    getitem stops (3 * y / 256 + 1) = Ok [r1; g1; b1] /\
    (r0 <= r /\ r <= r1) /\ (g0 <= g /\ g <= g1) /\ (b0 <= b /\ b <= b1).
Proof.
  intros Hx Hy.
  destruct (gradient_pixel x y Hx Hy) as (c & Ec & _ & Ep).
  rewrite (gradient_row_rgb y Hy) in Ec. injection Ec as <-.
  pose proof (forallb_range _ _ gradient_between_checked y Hy) as H.
  unfold gradient_between_check in H. apply andb_prop in H as [H0 H1].
  assert (Hi : 3 * y / 256 = 0 \/ 3 * y / 256 = 1 \/ 3 * y / 256 = 2).
  { assert (0 <= 3 * y / 256 < 3) by (split; [apply Z.div_pos | apply Z.div_lt_upper_bound]; lia).
    lia. }
  destruct (gradient_rgb y) as [[r g] b]. cbn [fst snd] in Ep.
  exists r, g, b.
  unfold rgb_le in H0, H1.
  destruct Hi as [Hi | [Hi | Hi]]; rewrite Hi in H0, H1 |- *.
  - change (stop_rgb 0) with (26, 0, 51) in H0.
    change (stop_rgb (0 + 1)) with (74, 0, 128) in H1.
    apply andb_prop in H0 as [H0 H0b]. apply andb_prop in H0 as [H0r H0g].
    apply andb_prop in H1 as [H1 H1b]. apply andb_prop in H1 as [H1r H1g].
    exists 26, 0, 51, 74, 0, 128.
    split; [exact Ep |]. split; [reflexivity |]. split; [reflexivity |]. lia.
  - change (stop_rgb 1) with (74, 0, 128) in H0.
    change (stop_rgb (1 + 1)) with (139, 0, 255) in H1.
    apply andb_prop in H0 as [H0 H0b]. apply andb_prop in H0 as [H0r H0g].
    apply andb_prop in H1 as [H1 H1b]. apply andb_prop in H1 as [H1r H1g].
    exists 74, 0, 128, 139, 0, 255.
    split; [exact Ep |]. split; [reflexivity |]. split; [reflexivity |]. lia.
  - change (stop_rgb 2) with (139, 0, 255) in H0.
    change (stop_rgb (2 + 1)) with (213, 128, 255) in H1.
    apply andb_prop in H0 as [H0 H0b]. apply andb_prop in H0 as [H0r H0g].
    apply andb_prop in H1 as [H1 H1b]. apply andb_prop in H1 as [H1r H1g].
    exists 139, 0, 255, 213, 128, 255.
    split; [exact Ep |]. split; [reflexivity |]. split; [reflexivity |]. lia.
Qed.

Lemma gradient_between_stops_witness :
  exists r g b r0 g0 b0 r1 g1 b1,
    pixel_of generate_purple_gradient 7 100 = Ok [r; g; b] /\
    getitem stops (3 * 100 / 256) = Ok [r0; g0; b0] /\
    getitem stops (3 * 100 / 256 + 1) = Ok [r1; g1; b1] /\
    (r0 <= r /\ r <= r1) /\ (g0 <= g /\ g <= g1) /\ (b0 <= b /\ b <= b1).
Proof. apply (gradient_between_stops 7 100); lia. Defined.

(** ** The sprites *)

(** X5: either sprite is white everywhere and radially symmetric about
    (32, 32): two pixels at the same distance from it hold the same colour,
    (255, 255, 255, alpha) with alpha within [0, 255]. *)
Theorem sprite_radial_symmetry (s : sprite) x1 y1 x2 y2 :
  0 <= x1 < 64 -> 0 <= y1 < 64 -> 0 <= x2 < 64 -> 0 <= y2 < 64 ->
  (x1 - 32) * (x1 - 32) + (y1 - 32) * (y1 - 32) =
  (x2 - 32) * (x2 - 32) + (y2 - 32) * (y2 - 32) ->
  exists alpha,
    0 <= alpha <= 255 /\
    pixel_of (sprite_generator s) x1 y1 = Ok [255; 255; 255; alpha] /\
    pixel_of (sprite_generator s) x2 y2 = Ok [255; 255; 255; alpha].
Proof.
  intros Hx1 Hy1 Hx2 Hy2 Hd.
  destruct (sprite_sample_ok s (x1 - 32) (y1 - 32)) as (n & a & En & Ea & Ha & _);
    [lia | lia |].
  exists a. split; [exact Ha |].
  rewrite (sprite_image_pixel s x1 y1 Hx1 Hy1), (sprite_image_pixel s x2 y2 Hx2 Hy2).
  unfold sprite_pixel. cbv zeta. rewrite <- Hd, En. cbn [bind]. rewrite Ea.
  split; reflexivity.
Qed.

Lemma sprite_radial_symmetry_witness :
  exists alpha,
    0 <= alpha <= 255 /\
    pixel_of (sprite_generator Soft) 42 52 = Ok [255; 255; 255; alpha] /\
    pixel_of (sprite_generator Soft) 12 22 = Ok [255; 255; 255; alpha].
Proof. apply (sprite_radial_symmetry Soft 42 52 12 22); lia. Defined.

Lemma opacity_checked :
  forallb (fun p => opacity_check (fst p * fst p + snd p * snd p)) (pairs 32) = true.
Proof. vm_compute. reflexivity. Qed.

(** X6: at every pixel the soft sprite is no more opaque than the glow
    sprite, and never above 153; the glow sprite has alpha 255 exactly on
    the disc of squared radius 40 about the centre, and the soft sprite has
    alpha 153 exactly on the disc of squared radius 92. *)
Theorem sprite_opacity x y :
  0 <= x < 64 -> 0 <= y < 64 ->
  exists a_glow a_soft,
    pixel_of generate_particle_sprite x y = Ok [255; 255; 255; a_glow] /\
    pixel_of generate_soft_particle_sprite x y = Ok [255; 255; 255; a_soft] /\
    a_soft <= a_glow /\ a_soft <= 153 /\
    (a_glow = 255 <-> (x - 32) * (x - 32) + (y - 32) * (y - 32) <= 40) /\
    (a_soft = 153 <-> (x - 32) * (x - 32) + (y - 32) * (y - 32) <= 92).
Proof.
  intros Hx Hy.
  pose proof (forallb_pairs opacity_check 32 opacity_checked (x - 32) (y - 32)) as H.
  unfold opacity_check, sprite_sample in H.
  change generate_particle_sprite with (sprite_generator Glow).
  change generate_soft_particle_sprite with (sprite_generator Soft).
  rewrite (sprite_image_pixel Glow x y Hx Hy), (sprite_image_pixel Soft x y Hx Hy).
  unfold sprite_pixel. cbv zeta.
  destruct (sprite_norm_dist 32 ((x - 32) * (x - 32) + (y - 32) * (y - 32)))
    as [n |]; [| discriminate H; lia].
  cbn [bind] in H |- *.
  destruct (sprite_profile Glow n) as [ag |]; [| discriminate H; lia].
  destruct (sprite_profile Soft n) as [asoft |]; [| discriminate H; lia].
  cbn [bind] in H |- *.
  assert (H' := H ltac:(lia) ltac:(lia)). clear H.
  apply andb_prop in H' as [H' H4]. apply andb_prop in H' as [H' H3].
  apply andb_prop in H' as [H1 H2].
  apply Bool.eqb_prop in H3, H4.
  exists ag, asoft.
  split; [reflexivity |]. split; [reflexivity |].
  split; [lia |]. split; [lia |]. split.
  - rewrite <- Z.leb_le, H3, Z.eqb_eq. reflexivity.
  - rewrite <- Z.leb_le, H4, Z.eqb_eq. reflexivity.
Qed.

Lemma sprite_opacity_witness :
  exists a_glow a_soft,
    pixel_of generate_particle_sprite 38 34 = Ok [255; 255; 255; a_glow] /\
    pixel_of generate_soft_particle_sprite 38 34 = Ok [255; 255; 255; a_soft] /\
    a_soft <= a_glow /\ a_soft <= 153 /\
    (a_glow = 255 <-> (38 - 32) * (38 - 32) + (34 - 32) * (34 - 32) <= 40) /\
    (a_soft = 153 <-> (38 - 32) * (38 - 32) + (34 - 32) * (34 - 32) <= 92).
Proof. apply (sprite_opacity 38 34); lia. Defined.

(** ** The matcap *)

Lemma matcap_radial_checked : matcap_radial_check matcap_table = true.
Proof. vm_compute. reflexivity. Qed.

Lemma darker_trans e1 e2 e3 :
  darker e1 e2 = true -> darker e2 e3 = true -> darker e1 e3 = true.
Proof.
  unfold darker. intros H1 H2.
  apply andb_prop in H1 as [D1 C1]. apply andb_prop in H2 as [D2 C2].
  apply andb_true_intro. split; [lia |]. exact (rgb_le_trans _ _ _ C2 C1).
Qed.

Lemma sortedb_StronglySorted {A : Type} (chk : A -> A -> bool) l :
  (forall a b c, chk a b = true -> chk b c = true -> chk a c = true) ->
  sortedb chk l = true -> StronglySorted (fun a b => chk a b = true) l.
Proof.
  intros Htrans H. apply Sorted_StronglySorted.
  - intros a b c. apply Htrans.
  - induction l as [| a l IH]; [constructor |].
    cbn [sortedb] in H. destruct l as [| b l].
    + constructor; constructor.
    + apply andb_prop in H as [Hab Hl]. constructor; [exact (IH Hl) |].
      constructor. exact Hab.
Qed.

Lemma StronglySorted_related {A : Type} (R : A -> A -> Prop) l a b :
  StronglySorted R l -> In a l -> In b l -> a = b \/ R a b \/ R b a.
Proof.
  induction 1 as [| x l Hs IH Hx]; intros Ha Hb; [destruct Ha |].
  rewrite Forall_forall in Hx.
  destruct Ha as [<- | Ha], Hb as [<- | Hb].
  - left. reflexivity.
  - right. left. apply Hx, list_elem_of_In, Hb.
  - right. right. apply Hx, list_elem_of_In, Ha.
  - exact (IH Ha Hb).
Qed.

Lemma matcap_entry_In dx dy :
  - 128 <= dx <= 128 -> - 128 <= dy <= 128 ->
  In (matcap_entry (dx * dx + dy * dy)) matcap_table.
Proof.
  intros Hx Hy. destruct (canonical_pair 128 dx dy Hx Hy) as (p & Hp & ->).
  unfold matcap_table.
  exact (in_map (fun p => matcap_entry (fst p * fst p + snd p * snd p)) _ _ Hp).
Qed.

Opaque matcap_table.

Lemma matcap_entry_tint dx dy :
  - 128 <= dx <= 128 -> - 128 <= dy <= 128 ->
  tint_check (matcap_entry (dx * dx + dy * dy)) = true.
Proof.
  intros Hx Hy. pose proof matcap_radial_checked as H.
  unfold matcap_radial_check in H. apply andb_prop in H as [H _].
  rewrite forallb_forall in H. apply H. apply matcap_entry_In; assumption.
Qed.

(** The entry at a squared distance that occurs holds the channels the
    generator computes there. *)
Lemma matcap_entry_pixel x y :
  0 <= x < 256 -> 0 <= y < 256 ->
  exists r g b,
    matcap_entry ((x - 128) * (x - 128) + (y - 128) * (y - 128)) =
      ((x - 128) * (x - 128) + (y - 128) * (y - 128), (r, g, b)) /\
    pixel_of generate_matcap_texture x y = Ok [r; g; b].
Proof.
  intros Hx Hy.
  pose proof (matcap_entry_tint (x - 128) (y - 128)) as H.
  rewrite (matcap_image_pixel x y Hx Hy). unfold matcap_pixel. cbv zeta.
  unfold matcap_entry in H |- *.
  destruct (let* norm_dist
              := matcap_norm_dist 128 128 ((x - 128) * (x - 128) + (y - 128) * (y - 128))
            in matcap_channels norm_dist)
    as [[| r [| g [| b [| ? ?]]]] |];
    try (specialize (H ltac:(lia) ltac:(lia)); discriminate H).
  exists r, g, b. split; reflexivity.
Qed.

(** X7: every pixel of the matcap has red equal to green and at most blue
    (the cool tint), red at least 50 and blue at least 127, and the centre
    is its only white pixel. *)
Theorem matcap_tint x y :
  0 <= x < 256 -> 0 <= y < 256 ->
  exists r b,
    pixel_of generate_matcap_texture x y = Ok [r; r; b] /\
    50 <= r /\ r <= b /\ 127 <= b /\ b <= 255 /\
    (r = 255 <-> x = 128 /\ y = 128).
Proof.
  intros Hx Hy.
  destruct (matcap_entry_pixel x y Hx Hy) as (r & g & b & Ee & Ep).
  pose proof (matcap_entry_tint (x - 128) (y - 128)) as H.
  rewrite Ee in H. specialize (H ltac:(lia) ltac:(lia)).
  unfold tint_check in H.
  apply andb_prop in H as [H H6]. apply andb_prop in H as [H H5].
  apply andb_prop in H as [H H4]. apply andb_prop in H as [H H3].
  apply andb_prop in H as [H1 H2]. apply Bool.eqb_prop in H6.
  apply Z.eqb_eq in H1. subst g.
  exists r, b. split; [exact Ep |].
  split; [lia |]. split; [lia |]. split; [lia |]. split; [lia |].
  rewrite <- Z.eqb_eq, <- H6, Z.eqb_eq. split; [| intros [-> ->]; reflexivity].
  intros E0.
  pose proof (Z.square_nonneg (x - 128)) as Sx.
  pose proof (Z.square_nonneg (y - 128)) as Sy.
  assert (Ax : (x - 128) * (x - 128) = 0) by lia.
  assert (Ay : (y - 128) * (y - 128) = 0) by lia.
  apply Z.mul_eq_0 in Ax, Ay. lia.
Qed.

Lemma matcap_tint_witness :
  exists r b,
    pixel_of generate_matcap_texture 255 255 = Ok [r; r; b] /\
    50 <= r /\ r <= b /\ 127 <= b /\ b <= 255 /\
    (r = 255 <-> 255 = 128 /\ 255 = 128).
Proof. apply (matcap_tint 255 255); lia. Defined.

(** X8: the matcap darkens outwards: of two pixels, the one farther from
    the centre (128, 128) has no channel brighter than the nearer one. *)
Theorem matcap_radial_falloff x1 y1 x2 y2 :
  0 <= x1 < 256 -> 0 <= y1 < 256 -> 0 <= x2 < 256 -> 0 <= y2 < 256 ->
  (x1 - 128) * (x1 - 128) + (y1 - 128) * (y1 - 128) <=
  (x2 - 128) * (x2 - 128) + (y2 - 128) * (y2 - 128) ->
  exists r1 g1 b1 r2 g2 b2,
    pixel_of generate_matcap_texture x1 y1 = Ok [r1; g1; b1] /\
    pixel_of generate_matcap_texture x2 y2 = Ok [r2; g2; b2] /\
    r2 <= r1 /\ g2 <= g1 /\ b2 <= b1.
Proof.
  intros Hx1 Hy1 Hx2 Hy2 Hd.
  destruct (matcap_entry_pixel x1 y1 Hx1 Hy1) as (r1 & g1 & b1 & Ee1 & Ep1).
  destruct (matcap_entry_pixel x2 y2 Hx2 Hy2) as (r2 & g2 & b2 & Ee2 & Ep2).
  exists r1, g1, b1, r2, g2, b2. split; [exact Ep1 |]. split; [exact Ep2 |].
  pose proof matcap_radial_checked as H.
  unfold matcap_radial_check in H. apply andb_prop in H as [_ H].
  apply (sortedb_StronglySorted darker _ darker_trans) in H.
  assert (In1 : In (matcap_entry ((x1 - 128) * (x1 - 128) + (y1 - 128) * (y1 - 128)))
                   (merge_sort farther matcap_table)).
  { apply (Permutation_in _
             (Permutation_sym (merge_sort_Permutation farther matcap_table))).
    apply matcap_entry_In; lia. }
  assert (In2 : In (matcap_entry ((x2 - 128) * (x2 - 128) + (y2 - 128) * (y2 - 128)))
                   (merge_sort farther matcap_table)).
  { apply (Permutation_in _
             (Permutation_sym (merge_sort_Permutation farther matcap_table))).
    apply matcap_entry_In; lia. }
  destruct (StronglySorted_related _ _ _ _ H In1 In2) as [E | [R | R]].
  - rewrite Ee1, Ee2 in E. injection E as _ -> -> ->. lia.
  - rewrite Ee1, Ee2 in R. unfold darker, rgb_le in R. cbn [fst snd] in R.
    apply andb_prop in R as [_ R]. apply andb_prop in R as [R Rb].
    apply andb_prop in R as [Rr Rg]. lia.
  - rewrite Ee1, Ee2 in R. unfold darker in R. cbn [fst snd] in R.
    apply andb_prop in R as [Rd _].
    assert (Ed : (x1 - 128) * (x1 - 128) + (y1 - 128) * (y1 - 128) =
                 (x2 - 128) * (x2 - 128) + (y2 - 128) * (y2 - 128)) by lia.
    rewrite Ed, Ee2 in Ee1. injection Ee1 as -> -> ->. lia.
Qed.

Lemma matcap_radial_falloff_witness :
  exists r1 g1 b1 r2 g2 b2,
    pixel_of generate_matcap_texture 130 128 = Ok [r1; g1; b1] /\
    pixel_of generate_matcap_texture 5 250 = Ok [r2; g2; b2] /\
    r2 <= r1 /\ g2 <= g1 /\ b2 <= b1.
Proof. apply (matcap_radial_falloff 130 128 5 250); lia. Defined.

(** ** The driver *)

Section DriverReports.

Variable OUTPUT_DIR : string.
Variable save_error : Image -> string -> option exn.

Lemma prints_app t1 t2 : prints (t1 ++ t2) = (prints t1 ++ prints t2)%list.
Proof. unfold prints. apply flat_map_app. Qed.

Lemma saved_paths_app t1 t2 :
  saved_paths (t1 ++ t2) = (saved_paths t1 ++ saved_paths t2)%list.
Proof. unfold saved_paths. apply flat_map_app. Qed.

Lemma prints_asset_trace a :
  (forall e, asset_error OUTPUT_DIR save_error a = Some e -> is_Exception e = true) ->
  prints (asset_trace OUTPUT_DIR save_error a) = report_lines OUTPUT_DIR save_error a.
Proof.
  unfold report_lines, asset_trace, asset_error. intros Hexc.
  destruct (generator a tt) as [img | e].
  - destruct (save_error img _) as [e |]; [| reflexivity].
    rewrite (Hexc e eq_refl). reflexivity.
  - rewrite (Hexc e eq_refl). reflexivity.
Qed.

Lemma saved_paths_asset_trace a :
  saved_paths (asset_trace OUTPUT_DIR save_error a) = attempted_save OUTPUT_DIR a.
Proof.
  unfold asset_trace, attempted_save.
  destruct (generator a tt) as [img | e].
  - destruct (save_error img _) as [e |]; [destruct (is_Exception e) |]; reflexivity.
  - destruct (is_Exception e); reflexivity.
Qed.

End DriverReports.

(** X9: when every error raised is an instance of [Exception], the loop
    reports each asset exactly once and in manifest order, as generated
    (two lines) when neither its generator nor its write raised and as
    failed (two lines, the second with the text of the error) otherwise;
    and a write is attempted for exactly the assets whose generator
    returned. *)
Theorem driver_loop_reports (OUTPUT_DIR : string)
    (save_error : Image -> string -> option exn) (l : list Asset) (t : list event) :
  (forall a e, In a l -> asset_error OUTPUT_DIR save_error a = Some e ->
               is_Exception e = true) ->
  exists t',
    io_for l (process_asset OUTPUT_DIR save_error) t = ((t ++ t')%list, Ok tt) /\
    prints t' = flat_map (report_lines OUTPUT_DIR save_error) l /\
    saved_paths t' = flat_map (attempted_save OUTPUT_DIR) l.
Proof.
  revert t. induction l as [| a l IH]; intros t Hexc.
  - exists []. cbn [io_for flat_map]. rewrite app_nil_r. repeat split.
  - destruct (IH (t ++ asset_trace OUTPUT_DIR save_error a)%list)
      as (t' & Erun & Hp & Hs).
    { intros b e Hb. apply Hexc. right. exact Hb. }
    exists (asset_trace OUTPUT_DIR save_error a ++ t')%list. split; [| split].
    + cbn [io_for]. unfold io_bind. rewrite process_asset_run.
      destruct (asset_error OUTPUT_DIR save_error a) as [e |] eqn:Ea.
      * rewrite (Hexc a e (or_introl eq_refl) Ea). rewrite Erun.
        rewrite <- app_assoc. reflexivity.
      * rewrite Erun. rewrite <- app_assoc. reflexivity.
    + rewrite prints_app, Hp. cbn [flat_map]. f_equal.
      apply prints_asset_trace. intros e. apply Hexc. left. reflexivity.
    + rewrite saved_paths_app, Hs. cbn [flat_map]. f_equal.
      apply saved_paths_asset_trace.
Qed.

Lemma driver_loop_reports_witness :
  let broken := {| name := "broken.png"; path := "textures";
                   generator := fun _ => Raise (Exn ValueError "no pixels");
                   description := "An asset whose generator raises" |} in
  let written := {| name := "written.png"; path := "sprites";
                    generator := fun _ => Ok (Image_new L 1 1 [0]);
                    description := "An asset that is written" |} in
  exists t',
    io_for [broken; written] (process_asset "/out" (fun _ _ => None)) [] =
      (([] ++ t')%list, Ok tt) /\
    prints t' = flat_map (report_lines "/out" (fun _ _ => None)) [broken; written] /\
    saved_paths t' = flat_map (attempted_save "/out") [broken; written].
Proof.
  intros broken written.
  apply (driver_loop_reports "/out" (fun _ _ => None) [broken; written] []).
  intros a e [<- | [<- | []]] He; vm_compute in He.
  - injection He as <-. reflexivity.
  - discriminate He.
Defined.

(** X10: an error that is not an instance of [Exception] (a
    [KeyboardInterrupt], a [SystemExit]) is not caught: it leaves the loop
    at the asset that raised it, without a report for that asset, and no
    later asset is attempted. *)
Theorem driver_loop_stops_on_base_exception (OUTPUT_DIR : string)
    (save_error : Image -> string -> option exn)
    (l1 : list Asset) (a : Asset) (l2 : list Asset) (e : exn) (t : list event) :
  (forall b e', In b l1 -> asset_error OUTPUT_DIR save_error b = Some e' ->
                is_Exception e' = true) ->
  asset_error OUTPUT_DIR save_error a = Some e -> is_Exception e = false ->
  exists t',
    io_for (l1 ++ a :: l2) (process_asset OUTPUT_DIR save_error) t =
      ((t ++ t')%list, Raise e) /\
    calls t' = (map name l1 ++ [name a])%list /\
    prints t' = flat_map (report_lines OUTPUT_DIR save_error) l1.
Proof.
  revert t. induction l1 as [| b l1 IH]; intros t Hexc Ha He.
  - exists (asset_trace OUTPUT_DIR save_error a). split; [| split].
    + cbn [app io_for]. unfold io_bind. rewrite process_asset_run, Ha, He.
      reflexivity.
    + apply calls_asset_trace.
    + unfold asset_trace, asset_error in *.
      destruct (generator a tt) as [img | e0].
      * rewrite Ha, He. reflexivity.
      * injection Ha as ->. rewrite He. reflexivity.
  - destruct (IH (t ++ asset_trace OUTPUT_DIR save_error b)%list)
      as (t' & Erun & Hc & Hp); try assumption.
    { intros c e' Hc. apply Hexc. right. exact Hc. }
    exists (asset_trace OUTPUT_DIR save_error b ++ t')%list. split; [| split].
    + cbn [app io_for]. unfold io_bind. rewrite process_asset_run.
      destruct (asset_error OUTPUT_DIR save_error b) as [e' |] eqn:Eb.
      * rewrite (Hexc b e' (or_introl eq_refl) Eb). cbn [app] in Erun.
        rewrite Erun. rewrite <- app_assoc. reflexivity.
      * rewrite Erun. rewrite <- app_assoc. reflexivity.
    + rewrite calls_app, calls_asset_trace, Hc. reflexivity.
    + rewrite prints_app, Hp. cbn [flat_map]. f_equal.
      apply prints_asset_trace. intros e'. apply Hexc. left. reflexivity.
Qed.

Lemma driver_loop_stops_on_base_exception_witness :
  let first := {| name := "first.png"; path := "textures";
                  generator := fun _ => Ok (Image_new L 1 1 [0]);
                  description := "An asset that is written" |} in
  let interrupted := {| name := "interrupted.png"; path := "textures";
                        generator := fun _ => Raise (Exn KeyboardInterrupt "");
                        description := "An asset whose generation is interrupted" |} in
  let last := {| name := "last.png"; path := "sprites";
                 generator := fun _ => Ok (Image_new L 1 1 [0]);
                 description := "An asset that is never reached" |} in
  exists t',
    io_for ([first] ++ interrupted :: [last]) (process_asset "/out" (fun _ _ => None)) [] =
      (([] ++ t')%list, Raise (Exn KeyboardInterrupt "")) /\
    calls t' = (map name [first] ++ [name interrupted])%list /\
    prints t' = flat_map (report_lines "/out" (fun _ _ => None)) [first].
Proof.
  intros first interrupted last.
  apply (driver_loop_stops_on_base_exception "/out" (fun _ _ => None)
           [first] interrupted [last] (Exn KeyboardInterrupt "") []).
  - intros b e' [<- | []] He. vm_compute in He. discriminate He.
  - reflexivity.
  - reflexivity.
Defined.



(** X12: if the creation of any of the three directories fails, [main]
    raises the error of the first one that fails; it has printed the banner
    only, called no generator and attempted no write, and it has not tried
    the directories after the failing one. *)
Theorem main_directory_failure
    (OUTPUT_DIR : string) (mkdir_error : string -> option exn)
    (save_error : Image -> string -> option exn)
    (randint : Z -> Z -> Z) (gaussian_blur : Z -> Image -> Image)
    (t : list event) :
  mkdir_error (path_join OUTPUT_DIR "textures") <> None \/
  mkdir_error (path_join OUTPUT_DIR "sprites") <> None \/
  mkdir_error (path_join OUTPUT_DIR "hdri") <> None ->
  exists e p t',
    main OUTPUT_DIR mkdir_error save_error randint gaussian_blur t =
      ((t ++ t')%list, Raise e) /\
    mkdir_error p = Some e /\
    (exists before, mkdirs t' = (before ++ [p])%list /\
                    forall q, In q before -> mkdir_error q = None) /\
    calls t' = [] /\ saved_paths t' = [] /\
    prints t' = ["Generating Prism Digital assets...
"].
Proof.
  intros Hfail. unfold main, ensure_directories, mkdir.
  destruct (mkdir_error (path_join OUTPUT_DIR "textures")) as [e1 |] eqn:M1.
  - exists e1, (path_join OUTPUT_DIR "textures"). eexists.
    cbv beta iota delta [io_bind emit print]. rewrite <- !app_assoc.
    split; [reflexivity |]. split; [exact M1 |].
    split; [exists []; split; [reflexivity | intros q []] |].
    repeat split.
  - destruct (mkdir_error (path_join OUTPUT_DIR "sprites")) as [e2 |] eqn:M2.
    + exists e2, (path_join OUTPUT_DIR "sprites"). eexists.
      cbv beta iota delta [io_bind emit print]. rewrite <- !app_assoc.
      split; [reflexivity |]. split; [exact M2 |].
      split.
      { exists [path_join OUTPUT_DIR "textures"]. split; [reflexivity |].
        intros q [<- | []]. exact M1. }
      repeat split.
    + destruct (mkdir_error (path_join OUTPUT_DIR "hdri")) as [e3 |] eqn:M3.
      * exists e3, (path_join OUTPUT_DIR "hdri"). eexists.
        cbv beta iota delta [io_bind emit print]. rewrite <- !app_assoc.
        split; [reflexivity |]. split; [exact M3 |].
        split.
        { exists [path_join OUTPUT_DIR "textures"; path_join OUTPUT_DIR "sprites"].
          split; [reflexivity |].
          intros q [<- | [<- | []]]; assumption. }
        repeat split.
      * exfalso. destruct Hfail as [H | [H | H]]; apply H; reflexivity.
Qed.

Lemma main_directory_failure_witness :
  exists e p t',
    main "/out" (fun p => if String.eqb p "/out/sprites"
                          then Some (permission_denied p) else None)
         (fun _ _ => None) (fun _ _ => 7) (fun _ img => img) [] =
      (([] ++ t')%list, Raise e) /\
    (if String.eqb p "/out/sprites" then Some (permission_denied p) else None) = Some e /\
    (exists before,
       mkdirs t' = (before ++ [p])%list /\
       forall q, In q before ->
         (if String.eqb q "/out/sprites" then Some (permission_denied q) else None) = None) /\
    calls t' = [] /\ saved_paths t' = [] /\
    prints t' = ["Generating Prism Digital assets...
"].
Proof.
  apply (main_directory_failure "/out"
           (fun p => if String.eqb p "/out/sprites"
                     then Some (permission_denied p) else None)
           (fun _ _ => None) (fun _ _ => 7) (fun _ img => img) []).
  right. left. vm_compute. discriminate.
Defined.
